(** * bettershutils: a shallow embedding and its verified properties

    The development follows [bettershutils/bettershutils.py].  The module is
    a thin layer of Python functions over [os], [os.path], [shutil] and
    [glob]; two decorators ([require_args], [expand_paths]) wrap the
    operations [mv], [rm], [cp] and [ls], and [current_directory] is a
    generator turned into a context manager by [contextlib].

    The embedding is organised as follows.
    - Strings are [String.string]; the pure helpers of [posixpath] that the
      module calls ([isabs], [join], [normpath], [abspath], [expanduser],
      [basename]) are written out on strings.
    - The host (filesystem, working directory, environment) is an interface
      [HostOS]: the operations are stated for every implementation of it.
    - Python code that reads or changes the host, prints, or raises is a
      function [World -> Res]: explicit state passing with an exception
      outcome that still carries the state reached.
    - [ToyHost] is one executable implementation of the interface, used to
      run the operations on concrete inputs. *)

From Stdlib Require Import List String Ascii ZArith Bool Arith Lia.
From Stdlib Require Import Numbers.DecimalString.
Import ListNotations.

Local Open Scope list_scope.
Local Open Scope string_scope.

#[local] Arguments Ascii.eqb : simpl never.
#[local] Arguments String.eqb : simpl never.

(* ================================================================== *)
(** ** String helpers (Python [str] methods used by the code) *)

Definition sep : string := "/".
Definition sep_char : ascii := "/"%char.

(** [s.startswith(p)] *)
Fixpoint startswith (s p : string) {struct p} : bool :=
  match p with
  | EmptyString => true
  | String a p' =>
      match s with
      | EmptyString => false
      | String b s' => Ascii.eqb a b && startswith s' p'
      end
  end.

(** [s.endswith("/")] *)
Fixpoint endswith_sep (s : string) : bool :=
  match s with
  | EmptyString => false
  | String c EmptyString => Ascii.eqb c sep_char
  | String _ s' => endswith_sep s'
  end.

(** [s.split("/")]: never the empty list; [n] separators give [n+1] fields. *)
Fixpoint split_sep (s : string) : list string :=
  match s with
  | EmptyString => [EmptyString]
  | String c s' =>
      if Ascii.eqb c sep_char then EmptyString :: split_sep s'
      else match split_sep s' with
           | [] => [String c EmptyString]
           | h :: t => String c h :: t
           end
  end.

(** ["/".join(comps)] *)
Definition join_sep (comps : list string) : string := String.concat sep comps.

(** ["/" * n] *)
Fixpoint sep_times (n : nat) : string :=
  match n with
  | O => EmptyString
  | S k => String sep_char (sep_times k)
  end.

(** [s.rstrip("/")] *)
Fixpoint rstrip_sep (s : string) : string :=
  match s with
  | EmptyString => EmptyString
  | String c s' =>
      let r := rstrip_sep s' in
      if Ascii.eqb c sep_char && String.eqb r EmptyString then EmptyString
      else String c r
  end.

(** [x or default] on strings: the empty string is falsy. *)
Definition str_or (x default : string) : string :=
  if String.eqb x EmptyString then default else x.

(** ['{}'.format(n)] for an integer. *)
Definition format_int (z : Z) : string := NilZero.string_of_int (Z.to_int z).

(** The double-quote character (code 34), used inside messages. *)
Definition dquote : string := String (ascii_of_nat 34) EmptyString.

(* ================================================================== *)
(** ** [posixpath] helpers *)

(** [posixpath.isabs] *)
Definition isabs (p : string) : bool := startswith p sep.

(** [posixpath.join(a, p)] with two arguments. *)
Definition path_join (a p : string) : string :=
  if startswith p sep then p
  else if String.eqb a EmptyString || endswith_sep a then a ++ p
  else a ++ sep ++ p.

(** The number of leading slashes [normpath] keeps: POSIX keeps exactly two,
    and treats three or more as one. *)
Definition initial_slashes (path : string) : nat :=
  if startswith path sep then
    if startswith path (sep_times 2) && negb (startswith path (sep_times 3))
    then 2 else 1
  else 0.

Definition is_nil {A} (l : list A) : bool :=
  match l with [] => true | _ => false end.

(** [new_comps and new_comps[-1] == '..'] *)
Definition last_is_dotdot (new_comps : list string) : bool :=
  match new_comps with
  | [] => false
  | _ => String.eqb (last new_comps EmptyString) ".."
  end.

(** One iteration of the loop of [posixpath.normpath]. *)
Definition normpath_step (initial : nat) (new_comps : list string)
    (comp : string) : list string :=
  if String.eqb comp EmptyString || String.eqb comp "." then new_comps
  else if negb (String.eqb comp "..")
          || (Nat.eqb initial 0 && is_nil new_comps)
          || last_is_dotdot new_comps
       then new_comps ++ [comp]
       else removelast new_comps.

(** [posixpath.normpath] *)
Definition normpath (path : string) : string :=
  if String.eqb path EmptyString then "."
  else
    let initial := initial_slashes path in
    let comps := fold_left (normpath_step initial) (split_sep path) [] in
    str_or (sep_times initial ++ join_sep comps) ".".

(** [posixpath.basename]: what follows the last slash. *)
Definition basename (p : string) : string := last (split_sep p) EmptyString.

(* ================================================================== *)
(** ** Exceptions, results and the host interface *)

(** The exception classes the module raises itself ([TypeError],
    [ValueError], [OSError], [FileExistsError], and the [IndexError] of an
    out-of-range index) and those the host calls raise. *)
Inductive ExnClass : Type :=
| TypeError | ValueError | IndexError | OSError | FileExistsError
| FileNotFoundError | NotADirectoryError | IsADirectoryError
| PermissionError | ShutilError | RuntimeError.

Inductive Exn : Type :=
| Exc (cls : ExnClass) (msg : string).

Definition exn_class (e : Exn) : ExnClass :=
  match e with Exc c _ => c end.

(** Outcome of a host call that changes the host: the new host, or an
    exception together with the host as the failed call left it. *)
Inductive HostRes (H : Type) : Type :=
| HOk (h : H)
| HErr (e : Exn) (h : H).
Arguments HOk {H} h.
Arguments HErr {H} e h.

(** The calls into [os], [os.path], [pwd], [glob] and [shutil] that the
    module makes.  Queries are functions of the host state; [glob.glob] and
    the [os.path] predicates never raise. *)
Class HostOS (H : Type) : Type := {
  os_getcwd : H -> string;
  environ_HOME : H -> option string;
  pwd_getpwuid_dir : H -> option string;
  pwd_getpwnam_dir : H -> string -> option string;
  path_isdir : H -> string -> bool;
  path_exists : H -> string -> bool;
  glob_glob : H -> string -> list string;
  os_listdir : H -> string -> Exn + list string;
  os_chdir : string -> H -> HostRes H;
  os_unlink : string -> H -> HostRes H;
  shutil_rmtree : string -> bool -> H -> HostRes H;
  shutil_move : string -> string -> H -> HostRes H;
  shutil_copy : string -> string -> H -> HostRes H;
  shutil_copytree : string -> string -> H -> HostRes H
}.

(** What [print] was called with: one string, or a label and a sequence. *)
Inductive PrintEvent : Type :=
| PrintStr (s : string)
| PrintSeq (label : string) (items : list string).

(** The state a call runs in: the host and what was printed so far. *)
Record World (H : Type) : Type := mkWorld {
  host : H;
  stdout : list PrintEvent
}.
Arguments mkWorld {H} host stdout.
Arguments host {H} w.
Arguments stdout {H} w.

(** Outcome of running Python code: a value, or a raised exception; both
    with the state reached. *)
Inductive Res (H A : Type) : Type :=
| Ok (a : A) (w : World H)
| Raise (e : Exn) (w : World H).
Arguments Ok {H A} a w.
Arguments Raise {H A} e w.

Definition M (H A : Type) : Type := World H -> Res H A.

Definition ret {H A} (a : A) : M H A := fun w => Ok a w.

Definition bind {H A B} (m : M H A) (f : A -> M H B) : M H B :=
  fun w => match m w with
           | Ok a w' => f a w'
           | Raise e w' => Raise e w'
           end.

Definition raise {H A} (e : Exn) : M H A := fun w => Raise e w.

(** Read the host. *)
Definition query {H A} (f : H -> A) : M H A := fun w => Ok (f (host w)) w.

(** A host call that changes the host. *)
Definition effect {H} (f : H -> HostRes H) : M H unit :=
  fun w => match f (host w) with
           | HOk h => Ok tt (mkWorld h (stdout w))
           | HErr e h => Raise e (mkWorld h (stdout w))
           end.

(** A host call that returns a value or raises, leaving the host as it was. *)
Definition attempt {H A} (f : H -> Exn + A) : M H A :=
  fun w => match f (host w) with
           | inr a => Ok a w
           | inl e => Raise e w
           end.

(** [print(...)] *)
Definition print {H} (ev : PrintEvent) : M H unit :=
  fun w => Ok tt (mkWorld (host w) (stdout w ++ [ev])).

Declare Scope py_scope.
Delimit Scope py_scope with py.
Notation "x <- m ;; k" := (bind m (fun x => k))
  (at level 61, m at next level, right associativity) : py_scope.
Notation "m ;; k" := (bind m (fun _ => k))
  (at level 61, right associativity) : py_scope.
Local Open Scope py_scope.

(** [for x in xs: body(x)]: the first exception ends the loop. *)
Fixpoint for_each {H A} (body : A -> M H unit) (xs : list A) : M H unit :=
  match xs with
  | [] => ret tt
  | x :: rest => body x ;; for_each body rest
  end.

(** A loop that threads an accumulator ([results] in [ls]). *)
Fixpoint for_fold {H A S} (body : S -> A -> M H S) (xs : list A) (s : S)
    : M H S :=
  match xs with
  | [] => ret s
  | x :: rest => s' <- body s x ;; for_fold body rest s'
  end.

(** Values a keyword argument may hold: [None], a [bool], an [int] or a
    [str].  Values of other types ([bytes] and path-like objects among
    them) are not modelled. *)
Inductive PyVal : Type :=
| VNone
| VBool (b : bool)
| VInt (z : Z)
| VStr (s : string).

(** [type(v).__name__]. *)
Definition type_name (v : PyVal) : string :=
  match v with
  | VNone => "NoneType"
  | VBool _ => "bool"
  | VInt _ => "int"
  | VStr _ => "str"
  end.

(** The message of the [TypeError] that [os.fspath], the first call of
    [posixpath.expanduser], raises for a value that is no path. *)
Definition fspath_message (v : PyVal) : string :=
  "expected str, bytes or os.PathLike object, not " ++ type_name v.

(** Python truth value. *)
Definition truthy (v : PyVal) : bool :=
  match v with
  | VNone => false
  | VBool b => b
  | VInt z => negb (Z.eqb z 0)
  | VStr s => negb (String.eqb s EmptyString)
  end.

(** [**kwargs]: keys in call order, each at most once. *)
Definition Kwargs : Type := list (string * PyVal).

Fixpoint kw_get (k : string) (kw : Kwargs) : option PyVal :=
  match kw with
  | [] => None
  | (k', v) :: rest => if String.eqb k k' then Some v else kw_get k rest
  end.

(** The first key of [kw] that is none of [allowed]. *)
Fixpoint unexpected_kw (allowed : list string) (kw : Kwargs) : option string :=
  match kw with
  | [] => None
  | (k, _) :: rest =>
      if existsb (String.eqb k) allowed then unexpected_kw allowed rest
      else Some k
  end.

(** A Python [dict] keyed by strings: insertion order, one entry per key;
    assigning to a present key replaces its value in place. *)
Fixpoint dict_set {V} (d : list (string * V)) (k : string) (v : V)
    : list (string * V) :=
  match d with
  | [] => [(k, v)]
  | (k', v') :: rest =>
      if String.eqb k k' then (k, v) :: rest else (k', v') :: dict_set rest k v
  end.

(** [args[-1]]: [None] stands for the [IndexError] of an empty sequence. *)
Definition last_item {A} (args : list A) : option A :=
  match args with
  | [] => None
  | x :: rest => Some (last rest x)
  end.

(** What [ls] returns: a bare sequence, or a mapping. *)
Inductive LsResult : Type :=
| Plain (entries : list string)
| Mapping (results : list (string * list string)).

(* ================================================================== *)
(** ** The functions of [bettershutils.py] *)

Section Bettershutils.

Context {H : Type} {os : HostOS H}.

(** [posixpath.expanduser]: a path that does not start with [~] is returned
    as it is; otherwise the part up to the first slash names the user whose
    home replaces it, and an unknown home leaves the path unchanged. *)
Definition expanduser (h : H) (path : string) : string :=
  if negb (startswith path "~") then path
  else
    let i := match String.index 1 sep path with
             | Some i => i
             | None => String.length path
             end in
    let userhome :=
      if Nat.eqb i 1 then
        match environ_HOME h with
        | Some home => Some home
        | None => pwd_getpwuid_dir h
        end
      else pwd_getpwnam_dir h (String.substring 1 (i - 1) path) in
    match userhome with
    | None => path
    | Some home =>
        str_or (rstrip_sep home
                ++ String.substring i (String.length path - i) path) sep
    end.

(** [posixpath.abspath] *)
Definition abspath (h : H) (path : string) : string :=
  normpath (if isabs path then path else path_join (os_getcwd h) path).

(** [expand_path], lines 210-211. *)
Definition expand_path (h : H) (input : string) : string :=
  abspath h (expanduser h input).

(** [_get_num_args_text], lines 10-19. *)
Definition _get_num_args_text (min max : option Z) : string :=
  match min, max with
  | Some mn, Some mx =>
      format_int mn ++ " to " ++ format_int mx ++ " arguments"
  | Some mn, None =>
      "at least " ++ format_int mn ++ " argument"
      ++ (if (mn >? 1)%Z then "s" else EmptyString)
  | None, Some mx => "no more than " ++ format_int mx ++ " arguments"
  | None, None => "any number of arguments"
  end.

(** The message of the [TypeError] of [require_args]:
    ['{} takes {}, but {} given'.format(func, ..., len(args))]. *)
Definition arity_message (func_repr : string) (min max : option Z) (n : nat)
    : string :=
  func_repr ++ " takes " ++ _get_num_args_text min max ++ ", but "
  ++ format_int (Z.of_nat n) ++ " given".

(** [require_args], lines 21-46: the decorated function [new_func].
    [func_repr] is the text [format] gives for the wrapped function. *)
Definition require_args {A K R} (min max : option Z) (func_repr : string)
    (func : list A -> K -> M H R) (args : list A) (kwargs : K) : M H R :=
  let n := Z.of_nat (List.length args) in
  if match max with Some mx => (n >? mx)%Z | None => false end then
    raise (Exc TypeError (arity_message func_repr min max (List.length args)))
  else if match min with Some mn => (n <? mn)%Z | None => false end then
    raise (Exc TypeError (arity_message func_repr min max (List.length args)))
  else func args kwargs.

(** The loop over [fkwargs] of [expand_paths], lines 71-73: a keyword
    argument whose name is one of [names] is replaced by its expansion;
    [expand_path] of [None], a [bool] or an [int] raises the [TypeError]
    of [os.fspath], which ends the loop. *)
Fixpoint expand_kwargs (names : list string) (h : H) (kw : Kwargs)
    : Exn + Kwargs :=
  match kw with
  | [] => inr []
  | (k, v) :: rest =>
      if existsb (String.eqb k) names then
        match v with
        | VStr s =>
            match expand_kwargs names h rest with
            | inr rest' => inr ((k, VStr (expand_path h s)) :: rest')
            | inl e => inl e
            end
        | _ => inl (Exc TypeError (fspath_message v))
        end
      else
        match expand_kwargs names h rest with
        | inr rest' => inr ((k, v) :: rest')
        | inl e => inl e
        end
  end.

(** The positional arguments [expand_paths] hands to the wrapped function:
    every argument expanded, then (with [do_glob]) replaced by its matches. *)
Definition expand_args (do_glob : bool) (h : H) (fargs : list string)
    : list string :=
  let fargs := map (expand_path h) fargs in
  if do_glob then flat_map (glob_glob h) fargs else fargs.

(** [expand_paths], lines 48-77: the decorated function [new_func]. *)
Definition expand_paths {R} (names : list string) (do_glob : bool)
    (func : list string -> Kwargs -> M H R)
    (fargs : list string) (fkwargs : Kwargs) : M H R :=
  print (PrintSeq "fargs are" fargs) ;;
  fargs1 <- query (fun h => map (expand_path h) fargs) ;;
  print (PrintSeq "and now" fargs1) ;;
  fargs2 <- (if do_glob
             then query (fun h => flat_map (glob_glob h) fargs1)
             else ret fargs1) ;;
  fkwargs' <- attempt (fun h => expand_kwargs names h fkwargs) ;;
  func fargs2 fkwargs'.

(** Calling a function that declares no keyword parameter. *)
Definition no_keywords {R} (name : string) (body : M H R) (kwargs : Kwargs)
    : M H R :=
  match kwargs with
  | [] => body
  | (k, _) :: _ =>
      raise (Exc TypeError
               (name ++ "() got an unexpected keyword argument '" ++ k ++ "'"))
  end.

Definition not_a_directory_message : string :=
  "Target is not a directory but multiple sources were specified".

(** The body of [mv], lines 90-101. *)
Definition mv_body (args : list string) : M H unit :=
  match last_item args with
  | None => raise (Exc IndexError "tuple index out of range")
  | Some target =>
      let sources := removelast args in
      target_is_dir <- query (fun h => path_isdir h target) ;;
      if negb target_is_dir && (1 <? List.length sources)%nat then
        raise (Exc ValueError not_a_directory_message)
      else
        target_is_dir <- query (fun h => path_isdir h target) ;;
        if target_is_dir then
          for_each (fun source => effect (shutil_move source target)) sources
        else
          match sources with
          | [] => raise (Exc IndexError "tuple index out of range")
          | source :: _ => effect (shutil_move source target)
          end
  end.

(** [mv], lines 79-80.  The name handed to [require_args] stands for the
    text [format] gives for the function object, [<function mv at 0x...>],
    whose address is not modelled; likewise in [rm] and [cp]. *)
Definition mv (args : list string) (kwargs : Kwargs) : M H unit :=
  require_args (Some 2%Z) None "mv"
    (fun args kwargs => no_keywords "mv" (mv_body args) kwargs) args kwargs.

Definition is_a_directory_message (arg : string) : string :=
  "Cannot remove " ++ dquote ++ arg ++ dquote ++ ": Is a directory".

(** One iteration of the loop of [rm], lines 121-133. *)
Definition rm_one (recursive ignore_errors : bool) (arg : string)
    : M H unit :=
  arg_exists <- query (fun h => path_exists h arg) ;;
  if negb arg_exists && ignore_errors then ret tt
  else
    arg_is_dir <- query (fun h => path_isdir h arg) ;;
    if arg_is_dir then
      if negb recursive then
        let error := is_a_directory_message arg in
        if ignore_errors then print (PrintStr error)
        else raise (Exc OSError error)
      else effect (shutil_rmtree arg ignore_errors)
    else effect (os_unlink arg).

(** The body of [rm], lines 120-133. *)
Definition rm_body (args : list string) (recursive ignore_errors : bool)
    : M H unit :=
  for_each (rm_one recursive ignore_errors) args.

(** A keyword-only parameter with default [False], used for its truth. *)
Definition flag (name : string) (kwargs : Kwargs) : bool :=
  match kw_get name kwargs with
  | Some v => truthy v
  | None => false
  end.

(** Calling the undecorated [rm]: any positional arguments, and the
    keyword-only parameters [recursive=False] and [ignore_errors=False]. *)
Definition rm_call (args : list string) (kwargs : Kwargs) : M H unit :=
  match unexpected_kw ["recursive"; "ignore_errors"] kwargs with
  | Some k =>
      raise (Exc TypeError
               ("rm() got an unexpected keyword argument '" ++ k ++ "'"))
  | None => rm_body args (flag "recursive" kwargs) (flag "ignore_errors" kwargs)
  end.

(** [rm], lines 103-105. *)
Definition rm (args : list string) (kwargs : Kwargs) : M H unit :=
  require_args (Some 1%Z) None "rm" (expand_paths [] true rm_call) args kwargs.

(** One iteration of the loop of [cp] over the sources, lines 158-165. *)
Definition cp_into (recursive : bool) (target source : string) : M H unit :=
  source_is_dir <- query (fun h => path_isdir h source) ;;
  if source_is_dir then
    if recursive then
      let dir_name := basename source in
      effect (shutil_copytree source (path_join target dir_name))
    else print (PrintStr ("Omitting directory " ++ source))
  else effect (shutil_copy source target).

Definition destination_exists_message : string :=
  "Cannot copy directory to file that already exists".

(** The body of [cp], lines 149-175. *)
Definition cp_body (args : list string) (recursive : bool) : M H unit :=
  match last_item args with
  | None => raise (Exc IndexError "tuple index out of range")
  | Some target =>
      let sources := removelast args in
      target_is_dir <- query (fun h => path_isdir h target) ;;
      if negb target_is_dir && (1 <? List.length sources)%nat then
        raise (Exc ValueError not_a_directory_message)
      else
        target_is_dir <- query (fun h => path_isdir h target) ;;
        if target_is_dir then for_each (cp_into recursive target) sources
        else
          match sources with
          | [] => raise (Exc IndexError "tuple index out of range")
          | source :: _ =>
              source_is_dir <- query (fun h => path_isdir h source) ;;
              target_exists <- query (fun h => path_exists h target) ;;
              if source_is_dir && target_exists then
                raise (Exc FileExistsError destination_exists_message)
              else if source_is_dir then
                effect (shutil_copytree source target)
              else effect (shutil_copy source target)
          end
  end.

(** Calling the undecorated [cp]: any positional arguments, and the
    keyword-only parameter [recursive=False]. *)
Definition cp_call (args : list string) (kwargs : Kwargs) : M H unit :=
  match unexpected_kw ["recursive"] kwargs with
  | Some k =>
      raise (Exc TypeError
               ("cp() got an unexpected keyword argument '" ++ k ++ "'"))
  | None => cp_body args (flag "recursive" kwargs)
  end.

(** [cp], lines 135-137. *)
Definition cp (args : list string) (kwargs : Kwargs) : M H unit :=
  require_args (Some 2%Z) None "cp" (expand_paths [] true cp_call) args kwargs.

(** [pwd], lines 178-179; [os.curdir] is ["."]. *)
Definition pwd : M H string := query (fun h => expand_path h ".").

(** One iteration of the loop of [ls], lines 188-193. *)
Definition ls_one (results : list (string * list string)) (arg : string)
    : M H (list (string * list string)) :=
  arg_is_dir <- query (fun h => path_isdir h arg) ;;
  if arg_is_dir then
    entries <- attempt (fun h => os_listdir h arg) ;;
    ret (dict_set results arg entries)
  else
    arg_exists <- query (fun h => path_exists h arg) ;;
    if arg_exists then ret (dict_set results arg [arg])
    else
      matches <- query (fun h => glob_glob h arg) ;;
      ret (dict_set results arg matches).

(** [results[list(results.keys())[0]]] when [len(results) == 1], else
    [results], lines 194-196. *)
Definition ls_collapse (results : list (string * list string)) : LsResult :=
  if Nat.eqb (List.length results) 1 then
    match results with
    | (_, entries) :: _ => Plain entries
    | [] => Mapping results
    end
  else Mapping results.

(** The body of [ls], lines 184-196. *)
Definition ls_body (args : list string) : M H LsResult :=
  let args := match args with [] => ["."] | _ => args end in
  results <- for_fold ls_one args [] ;;
  ret (ls_collapse results).

(** [ls], lines 182-183. *)
Definition ls (args : list string) (kwargs : Kwargs) : M H LsResult :=
  expand_paths ["path"] false
    (fun args kwargs => no_keywords "ls" (ls_body args) kwargs) args kwargs.

(** A generator function with a single [yield], the shape
    [contextlib.contextmanager] wraps.  [gen_to_yield] is the code from
    entry to the [yield] and returns the local variables alive there;
    [gen_from_yield] is the code after it; [gen_finally] is the [finally]
    clause of a [try] enclosing the [yield], when there is one. *)
Record Generator (L : Type) : Type := mkGenerator {
  gen_to_yield : M H L;
  gen_finally : option (L -> M H unit);
  gen_from_yield : L -> M H unit
}.
Arguments mkGenerator {L} gen_to_yield gen_finally gen_from_yield.
Arguments gen_to_yield {L} g.
Arguments gen_finally {L} g.
Arguments gen_from_yield {L} g.

Definition run_finally {L} (g : Generator L) (locals : L) : M H unit :=
  match gen_finally g with
  | Some fin => fin locals
  | None => ret tt
  end.

(** [with contextmanager(g)(): body].  [__enter__] runs the generator to
    its [yield].  When the body returns, [__exit__] resumes the generator
    with [next].  When the body raises, [__exit__] throws the exception
    into the generator at the [yield]: only an enclosing [finally] clause
    runs, the code after the [yield] does not, and the exception goes on to
    the caller. *)
Definition with_stmt {L A} (g : Generator L) (body : M H A) : M H A :=
  fun w =>
    match gen_to_yield g w with
    | Raise e w1 => Raise e w1
    | Ok locals w1 =>
        match body w1 with
        | Ok a w2 =>
            (run_finally g locals ;; gen_from_yield g locals ;; ret a) w2
        | Raise e w2 => (run_finally g locals ;; raise e) w2
        end
    end.

(** [current_directory], lines 213-222: the [yield] of line 221 stands in
    no [try] statement.  The local alive at the [yield] is [cur_dir]. *)
Definition current_directory (new_dir : string) : Generator string :=
  mkGenerator
    (new_dir <- query (fun h => expand_path h new_dir) ;;
     cur_dir <- query os_getcwd ;;
     effect (os_chdir new_dir) ;;
     ret cur_dir)
    None
    (fun cur_dir => effect (os_chdir cur_dir)).

End Bettershutils.

Arguments Generator H L : clear implicits.
Arguments mkGenerator {H L} gen_to_yield gen_finally gen_from_yield.
Arguments gen_to_yield {H L} g.
Arguments gen_finally {H L} g.
Arguments gen_from_yield {H L} g.

(** The two calls of [os] that only [mkdir] makes. *)
Class HostDirs (H : Type) : Type := {
  os_mkdir : string -> Z -> H -> HostRes H;
  os_makedirs : string -> Z -> bool -> H -> HostRes H
}.

Section Mkdir.

Context {H : Type} {os : HostOS H} {dirs : HostDirs H}.

(** [mkdir], lines 198-205; the default of [mode] is 511. *)
Definition mkdir (dir_name : string) (mode : Z) (parents exist_ok : bool)
    : M H unit :=
  if parents then effect (os_makedirs dir_name mode exist_ok)
  else
    dir_exists <- query (fun h => path_exists h dir_name) ;;
    if dir_exists then
      if exist_ok then ret tt
      else effect (os_mkdir dir_name mode)
    else effect (os_mkdir dir_name mode).

End Mkdir.

(* ================================================================== *)
(** ** An executable host

    A small in-memory host: a table from absolute normalised paths to the
    kind of node found there, the working directory, and the environment.
    It implements [HostOS] so that the operations can be run on concrete
    inputs.  Wildcards [*] and [?] are matched within one path component;
    bracket classes are not interpreted.  A dangling symbolic link is a
    node that [lexists] but does not [exists], as for [os.path]. *)

Module ToyHost.

Inductive Kind : Type := KFile | KDir | KBrokenLink.

Record Host : Type := mkHost {
  entries : list (string * Kind);
  cwd : string;
  env_home : option string;
  login : string;
  passwd : list (string * string)
}.

Fixpoint assoc {V} (k : string) (l : list (string * V)) : option V :=
  match l with
  | [] => None
  | (k', v) :: rest => if String.eqb k k' then Some v else assoc k rest
  end.

Definition resolve (h : Host) (p : string) : string :=
  normpath (if isabs p then p else path_join (cwd h) p).

Definition lookup (h : Host) (p : string) : option Kind :=
  assoc (resolve h p) (entries h).

Definition isdir (h : Host) (p : string) : bool :=
  match lookup h p with Some KDir => true | _ => false end.

Definition exists_ (h : Host) (p : string) : bool :=
  match lookup h p with Some KDir | Some KFile => true | _ => false end.

Definition lexists (h : Host) (p : string) : bool :=
  match lookup h p with Some _ => true | None => false end.

(** The prefix shared by every path below directory [d]. *)
Definition below_prefix (d : string) : string :=
  if String.eqb d sep then sep else d ++ sep.

Definition is_below (d p : string) : bool :=
  startswith p (below_prefix d) && negb (String.eqb p d).

(** [p] with the prefix of [d] removed. *)
Definition relative_to (d p : string) : string :=
  let n := String.length (below_prefix d) in
  String.substring n (String.length p - n) p.

Definition has_sep (s : string) : bool :=
  match String.index 0 sep s with Some _ => true | None => false end.

Definition set_entries (h : Host) (es : list (string * Kind)) : Host :=
  mkHost es (cwd h) (env_home h) (login h) (passwd h).

Definition without (d : string) (es : list (string * Kind))
    : list (string * Kind) :=
  filter (fun e => negb (String.eqb (fst e) d || is_below d (fst e))) es.

(** The entries at and below [src], re-rooted at [dst]. *)
Definition rerooted (src dst : string) (es : list (string * Kind))
    : list (string * Kind) :=
  flat_map (fun e =>
              if String.eqb (fst e) src then [(dst, snd e)]
              else if is_below src (fst e)
                   then [(below_prefix dst ++ relative_to src (fst e), snd e)]
                   else []) es.

Definition listdir (h : Host) (p : string) : Exn + list string :=
  if isdir h p then
    let d := resolve h p in
    inr (flat_map (fun e =>
                     if is_below d (fst e)
                        && negb (has_sep (relative_to d (fst e)))
                     then [relative_to d (fst e)] else []) (entries h))
  else if lexists h p then inl (Exc NotADirectoryError p)
  else inl (Exc FileNotFoundError p).

Definition chdir (p : string) (h : Host) : HostRes Host :=
  if isdir h p then
    HOk (mkHost (entries h) (resolve h p) (env_home h) (login h) (passwd h))
  else if lexists h p then HErr (Exc NotADirectoryError p) h
  else HErr (Exc FileNotFoundError p) h.

Definition unlink (p : string) (h : Host) : HostRes Host :=
  match lookup h p with
  | Some KDir => HErr (Exc IsADirectoryError p) h
  | Some _ => HOk (set_entries h (without (resolve h p) (entries h)))
  | None => HErr (Exc FileNotFoundError p) h
  end.

Definition rmtree (p : string) (ignore_errors : bool) (h : Host)
    : HostRes Host :=
  if isdir h p then HOk (set_entries h (without (resolve h p) (entries h)))
  else if ignore_errors then HOk h
  else if lexists h p then HErr (Exc NotADirectoryError p) h
  else HErr (Exc FileNotFoundError p) h.

(** [shutil.move]: into [dst] under the source's base name when [dst] is a
    directory, else onto [dst]. *)
Definition move (src dst : string) (h : Host) : HostRes Host :=
  let rsrc := resolve h src in
  let real_dst :=
    if isdir h dst then path_join (resolve h dst) (basename rsrc)
    else resolve h dst in
  if negb (lexists h src) then HErr (Exc FileNotFoundError src) h
  else if isdir h dst && lexists h real_dst then
    HErr (Exc ShutilError "Destination path already exists") h
  else if String.eqb real_dst rsrc || is_below rsrc real_dst then
    HErr (Exc ShutilError "Cannot move a directory into itself") h
  else if isdir h real_dst then HErr (Exc IsADirectoryError dst) h
  else
    let kept := without real_dst (without rsrc (entries h)) in
    HOk (set_entries h (kept ++ rerooted rsrc real_dst (entries h))).

(** [shutil.copy] of a file. *)
Definition copy (src dst : string) (h : Host) : HostRes Host :=
  let real_dst :=
    if isdir h dst then path_join (resolve h dst) (basename (resolve h src))
    else resolve h dst in
  if isdir h src then HErr (Exc IsADirectoryError src) h
  else if negb (exists_ h src) then HErr (Exc FileNotFoundError src) h
  else if isdir h real_dst then HErr (Exc IsADirectoryError real_dst) h
  else if negb (isdir h (real_dst ++ "/..")) then
    HErr (Exc FileNotFoundError real_dst) h
  else HOk (set_entries h (without real_dst (entries h) ++ [(real_dst, KFile)])).

(** [shutil.copytree]: the destination must not exist. *)
Definition copytree (src dst : string) (h : Host) : HostRes Host :=
  if negb (isdir h src) then
    if lexists h src then HErr (Exc NotADirectoryError src) h
    else HErr (Exc FileNotFoundError src) h
  else if lexists h dst then HErr (Exc FileExistsError dst) h
  else
    HOk (set_entries h
           (entries h ++ rerooted (resolve h src) (resolve h dst) (entries h))).

(** [fnmatch] restricted to [*] and [?]. *)
Fixpoint wild_match (pat s : string) : bool :=
  match pat with
  | EmptyString => String.eqb s EmptyString
  | String c pat' =>
      if Ascii.eqb c "*"%char then
        (fix star (s : string) : bool :=
           wild_match pat' s
           || match s with
              | EmptyString => false
              | String _ s' => star s'
              end) s
      else
        match s with
        | EmptyString => false
        | String d s' =>
            (Ascii.eqb c "?"%char || Ascii.eqb c d) && wild_match pat' s'
        end
  end.

(** A component that starts with a dot is matched only by a pattern that
    starts with a dot. *)
Definition component_match (pat s : string) : bool :=
  wild_match pat s && (negb (startswith s ".") || startswith pat ".").

Fixpoint components_match (pats comps : list string) : bool :=
  match pats, comps with
  | [], [] => true
  | p :: pats', c :: comps' =>
      component_match p c && components_match pats' comps'
  | _, _ => false
  end.

(** [glob.has_magic] *)
Fixpoint has_magic (s : string) : bool :=
  match s with
  | EmptyString => false
  | String c s' =>
      Ascii.eqb c "*"%char || Ascii.eqb c "?"%char || Ascii.eqb c "["%char
      || has_magic s'
  end.

(** [glob.glob]: a pattern without wildcards matches itself when it
    [lexists]; otherwise the paths of the table it matches. *)
Definition glob (h : Host) (pattern : string) : list string :=
  if has_magic pattern then
    let pats := split_sep (resolve h pattern) in
    map fst (filter (fun e => components_match pats (split_sep (fst e)))
               (entries h))
  else if lexists h pattern then [pattern]
  else [].

#[global] Instance toy_os : HostOS Host := {|
  os_getcwd := cwd;
  environ_HOME := env_home;
  pwd_getpwuid_dir := fun h => assoc (login h) (passwd h);
  pwd_getpwnam_dir := fun h name => assoc name (passwd h);
  path_isdir := isdir;
  path_exists := exists_;
  glob_glob := glob;
  os_listdir := listdir;
  os_chdir := chdir;
  os_unlink := unlink;
  shutil_rmtree := rmtree;
  shutil_move := move;
  shutil_copy := copy;
  shutil_copytree := copytree
|}.

(** A home directory with a file and a sub-directory, and [/tmp] holding a
    dangling link. *)
Definition sample : Host :=
  mkHost
    [ ("/", KDir); ("/home", KDir); ("/home/u", KDir);
      ("/home/u/a.txt", KFile); ("/home/u/docs", KDir);
      ("/home/u/docs/r.txt", KFile); ("/tmp", KDir);
      ("/tmp/dangling", KBrokenLink) ]
    "/home/u" (Some "/home/u") "u" [("u", "/home/u"); ("root", "/root")].

Definition start : World Host := mkWorld sample [].

End ToyHost.

(** [os.mkdir] and [os.makedirs] on the executable host. *)
Module ToyDirs.

Import ToyHost.

Definition mkdir_one (p : string) (mode : Z) (h : Host) : HostRes Host :=
  if lexists h p then HErr (Exc FileExistsError p) h
  else if negb (isdir h (p ++ "/..")) then HErr (Exc FileNotFoundError p) h
  else HOk (set_entries h (entries h ++ [(resolve h p, KDir)])).

(** The paths of the ancestors of a path and the path itself, from its
    components: [a; b] gives [/a; /a/b]. *)
Fixpoint ancestors (parent : string) (comps : list string) : list string :=
  match comps with
  | [] => []
  | c :: rest =>
      let here := path_join parent c in
      here :: ancestors here rest
  end.

Fixpoint make_all (paths : list string) (mode : Z) (h : Host)
    : HostRes Host :=
  match paths with
  | [] => HOk h
  | p :: rest =>
      if isdir h p then make_all rest mode h
      else match mkdir_one p mode h with
           | HOk h' => make_all rest mode h'
           | HErr e h' => HErr e h'
           end
  end.

Definition makedirs (p : string) (mode : Z) (exist_ok : bool) (h : Host)
    : HostRes Host :=
  if isdir h p then
    if exist_ok then HOk h else HErr (Exc FileExistsError p) h
  else if lexists h p then HErr (Exc FileExistsError p) h
  else
    make_all
      (ancestors sep
         (filter (fun c => negb (String.eqb c EmptyString))
            (split_sep (resolve h p))))
      mode h.

#[global] Instance toy_dirs : HostDirs Host := {|
  os_mkdir := mkdir_one;
  os_makedirs := makedirs
|}.

End ToyDirs.

(* ================================================================== *)
(** ** Vocabulary of the statements *)

(** A string without a slash. *)
Fixpoint no_slash (s : string) : bool :=
  match s with
  | EmptyString => true
  | String c s' => negb (Ascii.eqb c sep_char) && no_slash s'
  end.

(** A component [normpath] keeps in an absolute path: it has no slash and
    is none of the empty string, [.] and [..]. *)
Definition clean (c : string) : bool :=
  no_slash c
  && negb (String.eqb c EmptyString)
  && negb (String.eqb c ".")
  && negb (String.eqb c "..").

(** The bounds of [require_args] admit [n] positional arguments. *)
Definition arity_ok (min max : option Z) (n : nat) : Prop :=
  (forall mn, min = Some mn -> (mn <= Z.of_nat n)%Z)
  /\ (forall mx, max = Some mx -> (Z.of_nat n <= mx)%Z).

(** The world after the two [print] calls of [expand_paths]. *)
Definition after_prints {H} {os : HostOS H} (fargs : list string)
    (w : World H) : World H :=
  mkWorld (host w)
    (stdout w ++ [PrintSeq "fargs are" fargs;
                  PrintSeq "and now" (map (expand_path (host w)) fargs)]).

(** The keys of a dictionary, in order. *)
Definition keys {V} (d : list (string * V)) : list string := map fst d.

(** Membership in a list of strings. *)
Definition mem (x : string) (l : list string) : bool :=
  existsb (String.eqb x) l.

(** The distinct elements of a list, in order of first occurrence. *)
Fixpoint distinct (l : list string) : list string :=
  match l with
  | [] => []
  | x :: rest =>
      x :: filter (fun y => negb (String.eqb y x)) (distinct rest)
  end.

(** Moving each source into [dest] in order: the first move that fails
    ends the sequence, and the host stays as the moves made it. *)
Fixpoint move_each {H} {os : HostOS H} (dest : string)
    (sources : list string) (w : World H) : Res H unit :=
  match sources with
  | [] => Ok tt w
  | source :: rest =>
      match shutil_move source dest (host w) with
      | HOk h => move_each dest rest (mkWorld h (stdout w))
      | HErr e h => Raise e (mkWorld h (stdout w))
      end
  end.

(** The result sequence of [ls] for one path: the listing of a directory,
    the path itself for an existing file, else what [glob] matches. *)
Definition ls_entry {H} {os : HostOS H} (h : H) (arg : string)
    : Exn + list string :=
  if path_isdir h arg then os_listdir h arg
  else if path_exists h arg then inr [arg]
  else inr (glob_glob h arg).

Definition ls_entry_list {H} {os : HostOS H} (h : H) (arg : string)
    : list string :=
  match ls_entry h arg with
  | inr entries => entries
  | inl _ => []
  end.

(** The paths [ls] looks at: the expanded arguments, or [.] when there is
    none. *)
Definition ls_paths {H} {os : HostOS H} (h : H) (args : list string)
    : list string :=
  match args with
  | [] => ["."]
  | _ => map (expand_path h) args
  end.

(** What [ls] returns, by the distinct paths it looks at: the bare result
    sequence when there is exactly one, else the mapping from each to its
    result sequence. *)
Definition ls_expected {H} {os : HostOS H} (h : H) (args : list string)
    : LsResult :=
  match distinct (ls_paths h args) with
  | [p] => Plain (ls_entry_list h p)
  | ps => Mapping (map (fun p => (p, ls_entry_list h p)) ps)
  end.

(** The state an outcome carries. *)
Definition res_world {H A} (r : Res H A) : World H :=
  match r with
  | Ok _ w => w
  | Raise _ w => w
  end.

(** A host that differs from [os] in what [shutil.rmtree] does. *)
Definition with_rmtree {H} (os : HostOS H)
    (rmtree : string -> bool -> H -> HostRes H) : HostOS H := {|
  os_getcwd := @os_getcwd H os;
  environ_HOME := @environ_HOME H os;
  pwd_getpwuid_dir := @pwd_getpwuid_dir H os;
  pwd_getpwnam_dir := @pwd_getpwnam_dir H os;
  path_isdir := @path_isdir H os;
  path_exists := @path_exists H os;
  glob_glob := @glob_glob H os;
  os_listdir := @os_listdir H os;
  os_chdir := @os_chdir H os;
  os_unlink := @os_unlink H os;
  shutil_rmtree := rmtree;
  shutil_move := @shutil_move H os;
  shutil_copy := @shutil_copy H os;
  shutil_copytree := @shutil_copytree H os
|}.

(** A host that differs from [os] in what [shutil.copytree] does. *)
Definition with_copytree {H} (os : HostOS H)
    (copytree : string -> string -> H -> HostRes H) : HostOS H := {|
  os_getcwd := @os_getcwd H os;
  environ_HOME := @environ_HOME H os;
  pwd_getpwuid_dir := @pwd_getpwuid_dir H os;
  pwd_getpwnam_dir := @pwd_getpwnam_dir H os;
  path_isdir := @path_isdir H os;
  path_exists := @path_exists H os;
  glob_glob := @glob_glob H os;
  os_listdir := @os_listdir H os;
  os_chdir := @os_chdir H os;
  os_unlink := @os_unlink H os;
  shutil_rmtree := @shutil_rmtree H os;
  shutil_move := @shutil_move H os;
  shutil_copy := @shutil_copy H os;
  shutil_copytree := copytree
|}.

(** What [expand_paths] makes of one keyword argument: a string under one
    of the names is expanded, every other entry is kept. *)
Definition expand_entry {H} {os : HostOS H} (names : list string) (h : H)
    (entry : string * PyVal) : string * PyVal :=
  match entry with
  | (k, VStr s) => if mem k names then (k, VStr (expand_path h s)) else entry
  | _ => entry
  end.

(** A keyword argument [expand_paths] cannot expand: its name is one of
    the names and its value is [None], a [bool] or an [int]. *)
Definition unexpandable (names : list string) (entry : string * PyVal)
    : bool :=
  match entry with
  | (k, VNone) | (k, VBool _) | (k, VInt _) => mem k names
  | (_, VStr _) => false
  end.

(** The line [cp] prints for a directory it does not copy, line 163. *)
Definition omitting_directory (source : string) : PrintEvent :=
  PrintStr ("Omitting directory " ++ source).

(* ================================================================== *)
(** * Properties *)

(** ** Strings and path normalisation *)

Lemma startswith_sep_cons (s : string) :
  startswith s sep = true <-> exists s', s = String sep_char s'.
Proof.
  unfold sep. destruct s as [|c s]; simpl.
  - split; [discriminate | intros [s' E]; discriminate].
  - rewrite andb_true_r. split.
    + intros E. apply Ascii.eqb_eq in E. subst c. eauto.
    + intros [s' E]. inversion E. reflexivity.
Qed.

Lemma startswith_sep_app (a b : string) :
  startswith a sep = true -> startswith (a ++ b) sep = true.
Proof.
  intros Ha. apply startswith_sep_cons in Ha as [a' ->].
  apply startswith_sep_cons. simpl. eauto.
Qed.

Lemma split_sep_no_slash (s : string) :
  forallb no_slash (split_sep s) = true.
Proof.
  induction s as [|c s IH]; simpl; [reflexivity|].
  destruct (Ascii.eqb c sep_char) eqn:E; simpl; [exact IH|].
  destruct (split_sep s) as [|h t]; simpl in *; rewrite E; simpl;
    [reflexivity | exact IH].
Qed.

Lemma split_sep_single (c : string) :
  no_slash c = true -> split_sep c = [c].
Proof.
  induction c as [|a c IH]; simpl; [reflexivity|].
  intros Hc. apply andb_prop in Hc as [Ha Hc].
  apply negb_true_iff in Ha. rewrite Ha, (IH Hc). reflexivity.
Qed.

Lemma split_sep_app (c s : string) :
  no_slash c = true ->
  split_sep (c ++ String sep_char s) = c :: split_sep s.
Proof.
  induction c as [|a c IH]; simpl; intros Hc; [reflexivity|].
  apply andb_prop in Hc as [Ha Hc].
  apply negb_true_iff in Ha. rewrite Ha, (IH Hc). reflexivity.
Qed.

Lemma split_sep_join (cs : list string) :
  cs <> [] -> forallb no_slash cs = true -> split_sep (join_sep cs) = cs.
Proof.
  induction cs as [|c cs IH]; [congruence|].
  intros _ Hcs. simpl in Hcs. apply andb_prop in Hcs as [Hc Hcs].
  destruct cs as [|c' cs].
  - simpl. now apply split_sep_single.
  - change (join_sep (c :: c' :: cs))
      with (c ++ String sep_char (join_sep (c' :: cs))).
    rewrite (split_sep_app _ _ Hc), IH; [reflexivity | discriminate | exact Hcs].
Qed.

Lemma clean_no_slash (c : string) : clean c = true -> no_slash c = true.
Proof.
  unfold clean. intros Hc.
  repeat (apply andb_prop in Hc as [Hc _]). exact Hc.
Qed.

Lemma forallb_clean_no_slash (cs : list string) :
  forallb clean cs = true -> forallb no_slash cs = true.
Proof.
  induction cs as [|c cs IH]; simpl; [reflexivity|].
  intros Hcs. apply andb_prop in Hcs as [Hc Hcs].
  now rewrite (clean_no_slash _ Hc), IH.
Qed.

Lemma forallb_removelast {A} (f : A -> bool) (l : list A) :
  forallb f l = true -> forallb f (removelast l) = true.
Proof.
  induction l as [|x l IH]; simpl; [reflexivity|].
  intros Hl. apply andb_prop in Hl as [Hx Hl].
  destruct l as [|y l]; [reflexivity|].
  change (forallb f (x :: removelast (y :: l)) = true).
  simpl forallb at 1. rewrite Hx. exact (IH Hl).
Qed.

Lemma clean_last_not_dotdot (cs : list string) :
  forallb clean cs = true -> last_is_dotdot cs = false.
Proof.
  destruct cs as [|c cs]; [reflexivity|].
  intros Hcs. unfold last_is_dotdot.
  assert (Hl : clean (last (c :: cs) EmptyString) = true).
  { assert (Hin : In (last (c :: cs) EmptyString) (c :: cs)).
    { destruct (exists_last (l := c :: cs)) as [l' [a E]]; [discriminate|].
      rewrite E, last_last. apply in_or_app. right. now left. }
    rewrite forallb_forall in Hcs. now apply Hcs. }
  unfold clean in Hl. apply andb_prop in Hl as [_ Hl].
  now apply negb_true_iff in Hl.
Qed.

(** The loop of [normpath] on an absolute path keeps clean components only. *)
Lemma normpath_loop_clean (initial : nat) (comps acc : list string) :
  initial <> 0 ->
  forallb no_slash comps = true ->
  forallb clean acc = true ->
  forallb clean (fold_left (normpath_step initial) comps acc) = true.
Proof.
  intros Hk. revert acc.
  induction comps as [|c comps IH]; simpl; intros acc Hcs Hacc; [exact Hacc|].
  apply andb_prop in Hcs as [Hc Hcs]. apply IH; [exact Hcs|].
  unfold normpath_step.
  destruct (String.eqb c EmptyString) eqn:E0; [exact Hacc|].
  destruct (String.eqb c ".") eqn:E1; [exact Hacc|]. simpl.
  destruct (String.eqb c "..") eqn:E2; simpl.
  - destruct (Nat.eqb_spec initial 0) as [->|_]; [now elim Hk|]. simpl.
    rewrite (clean_last_not_dotdot _ Hacc).
    now apply forallb_removelast.
  - rewrite forallb_app, Hacc. simpl. unfold clean.
    now rewrite Hc, E0, E1, E2.
Qed.

(** On clean components the loop of [normpath] appends each of them. *)
Lemma normpath_loop_append (initial : nat) (cs acc : list string) :
  forallb clean cs = true ->
  fold_left (normpath_step initial) cs acc = (acc ++ cs)%list.
Proof.
  revert acc. induction cs as [|c cs IH]; simpl; intros acc Hcs.
  - now rewrite app_nil_r.
  - apply andb_prop in Hcs as [Hc Hcs].
    rewrite (IH _ Hcs).
    unfold clean in Hc.
    apply andb_prop in Hc as [Hc E2]. apply andb_prop in Hc as [Hc E1].
    apply andb_prop in Hc as [Hc E0].
    apply negb_true_iff in E0, E1, E2.
    unfold normpath_step. rewrite E0, E1, E2. simpl.
    now rewrite <- app_assoc.
Qed.

Lemma normpath_loop_skips_empty (initial k : nat) (comps acc : list string) :
  fold_left (normpath_step initial) (repeat EmptyString k ++ comps) acc
  = fold_left (normpath_step initial) comps acc.
Proof.
  induction k as [|k IH]; simpl; [reflexivity | exact IH].
Qed.

Lemma split_sep_sep_times (k : nat) (t : string) :
  split_sep (sep_times k ++ t) = (repeat EmptyString k ++ split_sep t)%list.
Proof.
  induction k as [|k IH]; simpl; [reflexivity|].
  now rewrite IH.
Qed.

Lemma normpath_loop_of_join (initial : nat) (cs : list string) :
  forallb clean cs = true ->
  fold_left (normpath_step initial) (split_sep (join_sep cs)) [] = cs.
Proof.
  intros Hcs. destruct cs as [|c cs]; [reflexivity|].
  rewrite split_sep_join;
    [ | discriminate | now apply forallb_clean_no_slash ].
  now rewrite normpath_loop_append.
Qed.

Lemma join_clean_not_abs (cs : list string) :
  forallb clean cs = true -> startswith (join_sep cs) sep = false.
Proof.
  destruct cs as [|c cs]; [reflexivity|]. simpl forallb.
  intros Hcs. apply andb_prop in Hcs as [Hc _].
  unfold clean in Hc.
  apply andb_prop in Hc as [Hc _]. apply andb_prop in Hc as [Hc _].
  apply andb_prop in Hc as [Hs Hne].
  destruct c as [|a c]; [discriminate Hne|].
  simpl in Hs. apply andb_prop in Hs as [Ha _]. apply negb_true_iff in Ha.
  assert (E : forall rest, startswith (String a rest) sep = false).
  { intros rest. unfold sep. simpl.
    unfold sep_char in Ha. now rewrite Ascii.eqb_sym, Ha. }
  unfold join_sep. destruct cs; cbn [String.concat String.append]; apply E.
Qed.

Lemma initial_slashes_sep_times (k : nat) (t : string) :
  k = 1 \/ k = 2 -> startswith t sep = false ->
  initial_slashes (sep_times k ++ t) = k.
Proof.
  unfold initial_slashes, sep. intros Hk Ht.
  destruct t as [|a t].
  - now destruct Hk as [-> | ->].
  - simpl in Ht. rewrite andb_true_r in Ht.
    destruct Hk as [-> | ->]; simpl; unfold sep_char; now rewrite Ht.
Qed.

(** A slash prefix of length one or two followed by clean components is a
    fixed point of [normpath]. *)
Lemma normpath_fixed (k : nat) (cs : list string) :
  k = 1 \/ k = 2 -> forallb clean cs = true ->
  normpath (sep_times k ++ join_sep cs) = sep_times k ++ join_sep cs.
Proof.
  intros Hk Hcs. unfold normpath.
  assert (Hne : forall t d, str_or (sep_times k ++ t) d = sep_times k ++ t).
  { intros t d. now destruct Hk as [-> | ->]. }
  replace (String.eqb (sep_times k ++ join_sep cs) EmptyString) with false
    by now destruct Hk as [-> | ->].
  cbv zeta.
  rewrite (initial_slashes_sep_times _ _ Hk (join_clean_not_abs _ Hcs)).
  rewrite split_sep_sep_times, normpath_loop_skips_empty.
  rewrite (normpath_loop_of_join _ _ Hcs). apply Hne.
Qed.

(** [normpath] of an absolute path is such a fixed point. *)
Lemma normpath_abs_form (x : string) :
  isabs x = true ->
  exists k cs, (k = 1 \/ k = 2) /\ forallb clean cs = true
               /\ normpath x = sep_times k ++ join_sep cs.
Proof.
  intros Hx.
  assert (Hk : initial_slashes x = 1 \/ initial_slashes x = 2).
  { unfold initial_slashes. unfold isabs in Hx. rewrite Hx.
    destruct (_ && _); auto. }
  exists (initial_slashes x),
    (fold_left (normpath_step (initial_slashes x)) (split_sep x) []).
  split; [exact Hk|]. split.
  - apply normpath_loop_clean;
      [ destruct Hk as [-> | ->]; discriminate
      | apply split_sep_no_slash | reflexivity ].
  - unfold normpath. apply startswith_sep_cons in Hx as [x' ->].
    change (String.eqb (String sep_char x') EmptyString) with false.
    cbv zeta iota. set (t := join_sep _).
    now destruct Hk as [-> | ->].
Qed.

Lemma normpath_abs_idempotent (x : string) :
  isabs x = true -> normpath (normpath x) = normpath x.
Proof.
  intros Hx. destruct (normpath_abs_form x Hx) as (k & cs & Hk & Hcs & ->).
  now apply normpath_fixed.
Qed.

Lemma normpath_abs_isabs (x : string) :
  isabs x = true -> isabs (normpath x) = true.
Proof.
  intros Hx. destruct (normpath_abs_form x Hx) as (k & cs & Hk & Hcs & ->).
  now destruct Hk as [-> | ->].
Qed.

Lemma path_join_isabs (a p : string) :
  isabs a = true -> isabs (path_join a p) = true.
Proof.
  unfold isabs, path_join. intros Ha.
  destruct (startswith p sep) eqn:Hp; [exact Hp|].
  destruct (_ || _); now apply startswith_sep_app.
Qed.

Section ExpandPath.

Context {H : Type} {os : HostOS H}.

Lemma expanduser_abs (h : H) (p : string) :
  isabs p = true -> expanduser h p = p.
Proof.
  intros Hp. apply startswith_sep_cons in Hp as [p' ->]. reflexivity.
Qed.

(** What [abspath] normalises is absolute when the working directory is. *)
Lemma abspath_is_normpath_of_abs (h : H) (q : string) :
  isabs (os_getcwd h) = true ->
  exists x, isabs x = true /\ abspath h q = normpath x.
Proof.
  intros Hcwd. unfold abspath. destruct (isabs q) eqn:Hq.
  - now exists q.
  - exists (path_join (os_getcwd h) q). split; [|reflexivity].
    now apply path_join_isabs.
Qed.

(** C5. [expand_path] is idempotent: for every string [p], expanding the
    expansion of [p] gives the expansion of [p] again, so an expanded,
    absolute path is returned unchanged.  The working directory that
    [os.getcwd] reports is absolute. *)
Theorem expand_path_idempotent (h : H) (p : string) :
  isabs (os_getcwd h) = true ->
  expand_path h (expand_path h p) = expand_path h p.
Proof.
  intros Hcwd. unfold expand_path.
  destruct (abspath_is_normpath_of_abs h (expanduser h p) Hcwd)
    as (x & Hx & ->).
  rewrite (expanduser_abs h _ (normpath_abs_isabs x Hx)).
  unfold abspath. rewrite (normpath_abs_isabs x Hx).
  now apply normpath_abs_idempotent.
Qed.

End ExpandPath.

Lemma expand_path_idempotent_witness :
  isabs (os_getcwd ToyHost.sample) = true
  /\ expand_path ToyHost.sample
       (expand_path ToyHost.sample "~root/../x//y/./z/")
     = expand_path ToyHost.sample "~root/../x//y/./z/".
Proof.
  split; [reflexivity|].
  apply (expand_path_idempotent ToyHost.sample); reflexivity.
Defined.

(** ** The two decorators *)

Section Decorators.

Context {H : Type} {os : HostOS H}.

Lemma require_args_pass {A K R} (min max : option Z) (func_repr : string)
    (func : list A -> K -> M H R) (args : list A) (kwargs : K) :
  arity_ok min max (List.length args) ->
  require_args min max func_repr func args kwargs = func args kwargs.
Proof.
  intros [Hmin Hmax]. unfold require_args.
  destruct max as [mx|].
  - specialize (Hmax mx eq_refl).
    destruct (Z.gtb_spec (Z.of_nat (List.length args)) mx); [lia|].
    destruct min as [mn|]; [|reflexivity].
    specialize (Hmin mn eq_refl).
    destruct (Z.ltb_spec (Z.of_nat (List.length args)) mn); [lia|reflexivity].
  - destruct min as [mn|]; [|reflexivity].
    specialize (Hmin mn eq_refl).
    destruct (Z.ltb_spec (Z.of_nat (List.length args)) mn); [lia|reflexivity].
Qed.

Lemma require_args_reject {A K R} (min max : option Z) (func_repr : string)
    (func : list A -> K -> M H R) (args : list A) (kwargs : K) :
  ~ arity_ok min max (List.length args) ->
  require_args min max func_repr func args kwargs
  = raise (Exc TypeError
             (arity_message func_repr min max (List.length args))).
Proof.
  intros Hno. unfold require_args.
  destruct max as [mx|].
  - destruct (Z.gtb_spec (Z.of_nat (List.length args)) mx); [reflexivity|].
    destruct min as [mn|].
    + destruct (Z.ltb_spec (Z.of_nat (List.length args)) mn); [reflexivity|].
      elim Hno. split; intros ? [= <-]; lia.
    + elim Hno. split; [discriminate | intros ? [= <-]; lia].
  - destruct min as [mn|].
    + destruct (Z.ltb_spec (Z.of_nat (List.length args)) mn); [reflexivity|].
      elim Hno. split; [intros ? [= <-]; lia | discriminate].
    + elim Hno. split; discriminate.
Qed.

(** C3. For all bounds [min], [max] and every call with [N] positional
    arguments, the wrapper of [require_args] delegates to the wrapped
    function with the positional and keyword arguments as given and returns
    what it returns, if and only if [N >= min] when [min] is set and
    [N <= max] when [max] is set; otherwise it raises the [TypeError] whose
    message is built by [_get_num_args_text], in the state of the call,
    whatever the wrapped function is: the function has not been invoked. *)
Theorem require_args_accepts_iff_within_bounds {A K R}
    (min max : option Z) (func_repr : string)
    (func : list A -> K -> M H R) (args : list A) (kwargs : K)
    (w : World H) :
  (arity_ok min max (List.length args) ->
   require_args min max func_repr func args kwargs w = func args kwargs w)
  /\ (~ arity_ok min max (List.length args) ->
      forall func' : list A -> K -> M H R,
        require_args min max func_repr func' args kwargs w
        = Raise (Exc TypeError
                   (func_repr ++ " takes " ++ _get_num_args_text min max
                    ++ ", but " ++ format_int (Z.of_nat (List.length args))
                    ++ " given")) w).
Proof.
  split.
  - intros Hok. now rewrite require_args_pass.
  - intros Hno func'. now rewrite require_args_reject.
Qed.

Lemma expand_kwargs_no_names (h : H) (kw : Kwargs) :
  expand_kwargs [] h kw = inr kw.
Proof.
  induction kw as [|[k v] kw IH]; simpl; [reflexivity | now rewrite IH].
Qed.

(** With no keyword name to expand, [expand_paths] prints twice and calls
    the wrapped function on the expanded positional arguments. *)
Lemma expand_paths_no_names {R} (do_glob : bool)
    (func : list string -> Kwargs -> M H R)
    (fargs : list string) (kwargs : Kwargs) (w : World H) :
  expand_paths [] do_glob func fargs kwargs w
  = func (expand_args do_glob (host w) fargs) kwargs (after_prints fargs w).
Proof.
  unfold expand_paths, expand_args, after_prints, bind, print, query, attempt.
  simpl. destruct do_glob; unfold query, ret; simpl;
    rewrite expand_kwargs_no_names, <- app_assoc; reflexivity.
Qed.

Lemma arity_ok_min (mn : Z) (n : nat) :
  arity_ok (Some mn) None n <-> (mn <= Z.of_nat n)%Z.
Proof.
  unfold arity_ok. split.
  - intros [Hmin _]. now apply Hmin.
  - intros Hle. split; [intros ? [= <-]; exact Hle | discriminate].
Qed.

Lemma rm_unfold (args : list string) (kwargs : Kwargs) (w : World H) :
  1 <= List.length args ->
  rm args kwargs w
  = rm_call (expand_args true (host w) args) kwargs (after_prints args w).
Proof.
  intros Hn. unfold rm.
  rewrite require_args_pass by (apply arity_ok_min; lia).
  apply expand_paths_no_names.
Qed.

Lemma cp_unfold (args : list string) (kwargs : Kwargs) (w : World H) :
  2 <= List.length args ->
  cp args kwargs w
  = cp_call (expand_args true (host w) args) kwargs (after_prints args w).
Proof.
  intros Hn. unfold cp.
  rewrite require_args_pass by (apply arity_ok_min; lia).
  apply expand_paths_no_names.
Qed.

(** A pattern without a match contributes no argument. *)
Lemma expand_args_no_match (h : H) (before after : list string) (p : string) :
  glob_glob h (expand_path h p) = [] ->
  expand_args true h (before ++ p :: after)
  = expand_args true h (before ++ after).
Proof.
  intros Hp. unfold expand_args.
  rewrite !map_app, !flat_map_app. simpl. now rewrite Hp.
Qed.

(** C4. For [rm] and [cp], which compose both wrappers, the count is
    checked on the raw positional arguments before expansion runs: a call
    with too few raw arguments raises the [TypeError] in the state of the
    call, nothing printed or expanded; a call with enough raw arguments
    runs the wrapped function on the expanded arguments, however few they
    are, so an expansion shorter than the minimum is no arity violation.
    Expansion itself is a total function, and a pattern without a match
    contributes no argument to the wrapped call. *)
Theorem arity_checked_before_expansion
    (args : list string) (kwargs : Kwargs) (w : World H) :
  (List.length args < 1 ->
   rm args kwargs w
   = Raise (Exc TypeError
              (arity_message "rm" (Some 1%Z) None (List.length args))) w)
  /\ (1 <= List.length args ->
      rm args kwargs w
      = rm_call (expand_args true (host w) args) kwargs
          (after_prints args w))
  /\ (List.length args < 2 ->
      cp args kwargs w
      = Raise (Exc TypeError
                 (arity_message "cp" (Some 2%Z) None (List.length args))) w)
  /\ (2 <= List.length args ->
      cp args kwargs w
      = cp_call (expand_args true (host w) args) kwargs
          (after_prints args w))
  /\ (forall before after p,
        args = (before ++ p :: after)%list ->
        glob_glob (host w) (expand_path (host w) p) = [] ->
        expand_args true (host w) args
        = expand_args true (host w) (before ++ after)).
Proof.
  split; [|split; [|split; [|split]]].
  - intros Hn. unfold rm.
    rewrite require_args_reject; [reflexivity|].
    rewrite arity_ok_min. lia.
  - apply rm_unfold.
  - intros Hn. unfold cp.
    rewrite require_args_reject; [reflexivity|].
    rewrite arity_ok_min. lia.
  - apply cp_unfold.
  - intros before after p -> Hp. now apply expand_args_no_match.
Qed.

End Decorators.

(** ** The operations *)

Section Operations.

Context {H : Type} {os : HostOS H}.

Lemma last_item_app {A} (l : list A) (x : A) :
  last_item (l ++ [x]) = Some x.
Proof.
  destruct l as [|a l]; simpl; [reflexivity|]. now rewrite last_last.
Qed.

Lemma for_each_moves (dest : string) (sources : list string) (w : World H) :
  for_each (fun source => effect (shutil_move source dest)) sources w
  = move_each dest sources w.
Proof.
  revert w. induction sources as [|s sources IH]; intros w; [reflexivity|].
  simpl. unfold bind, effect at 1.
  destruct (shutil_move s dest (host w)); [apply IH | reflexivity].
Qed.

(** A failing move ends the sequence in the state the earlier moves and the
    failed one left. *)
Lemma move_each_stops (dest : string) (before after : list string)
    (s : string) (w w1 : World H) (e : Exn) (h' : H) :
  move_each dest before w = Ok tt w1 ->
  shutil_move s dest (host w1) = HErr e h' ->
  move_each dest (before ++ s :: after) w = Raise e (mkWorld h' (stdout w1)).
Proof.
  revert w. induction before as [|b before IH]; simpl; intros w Hb Hs.
  - injection Hb as <-. now rewrite Hs.
  - destruct (shutil_move b dest (host w)); [now apply IH | discriminate].
Qed.

Lemma mv_unfold (sources : list string) (dest : string) (w : World H) :
  sources <> [] ->
  mv (sources ++ [dest]) [] w
  = if negb (path_isdir (host w) dest) && (1 <? List.length sources)%nat
    then Raise (Exc ValueError not_a_directory_message) w
    else if path_isdir (host w) dest then move_each dest sources w
    else match sources with
         | [] => Raise (Exc IndexError "tuple index out of range") w
         | source :: _ => effect (shutil_move source dest) w
         end.
Proof.
  intros Hne. unfold mv.
  rewrite require_args_pass.
  2:{ apply arity_ok_min. rewrite length_app. simpl.
      destruct sources; [congruence | simpl; lia]. }
  unfold no_keywords, mv_body.
  rewrite last_item_app, removelast_last.
  unfold bind, query, raise.
  destruct (negb (path_isdir (host w) dest) && _); [reflexivity|].
  destruct (path_isdir (host w) dest); [apply for_each_moves|].
  now destruct sources.
Qed.

(** C6. For every call [mv(s1, ..., sn, dest)] with at least two
    arguments: when [dest] is no existing directory and [n > 1], the call
    raises the [ValueError] in the state of the call, nothing moved; when
    [dest] is an existing directory, every source is moved into it by a
    move of its own, in argument order, and a move that fails ends the call
    in the state the earlier moves left, none of them undone; when [dest]
    is no directory and [n = 1], the single source is moved to [dest]. *)
Theorem mv_moves_sources_to_destination
    (sources : list string) (dest : string) (w : World H) :
  sources <> [] ->
  (path_isdir (host w) dest = false -> 1 < List.length sources ->
   mv (sources ++ [dest]) [] w
   = Raise (Exc ValueError not_a_directory_message) w)
  /\ (path_isdir (host w) dest = true ->
      mv (sources ++ [dest]) [] w = move_each dest sources w)
  /\ (path_isdir (host w) dest = true ->
      forall before s after w1 e h',
        sources = (before ++ s :: after)%list ->
        move_each dest before w = Ok tt w1 ->
        shutil_move s dest (host w1) = HErr e h' ->
        mv (sources ++ [dest]) [] w = Raise e (mkWorld h' (stdout w1)))
  /\ (path_isdir (host w) dest = false ->
      forall s, sources = [s] ->
        mv (sources ++ [dest]) [] w = effect (shutil_move s dest) w).
Proof.
  intros Hne. rewrite (mv_unfold _ _ _ Hne). split; [|split; [|split]].
  - intros Hd Hn. rewrite Hd.
    apply Nat.ltb_lt in Hn. now rewrite Hn.
  - intros Hd. now rewrite Hd.
  - intros Hd before s after w1 e h' -> Hb Hs. rewrite Hd. simpl.
    now apply move_each_stops.
  - intros Hd s ->. now rewrite Hd.
Qed.

End Operations.

Lemma mv_moves_sources_to_destination_witness :
  ["a.txt"; "docs"] <> []
  /\ mv (["a.txt"; "docs"] ++ ["/tmp"]) [] ToyHost.start
     = move_each "/tmp" ["a.txt"; "docs"] ToyHost.start.
Proof.
  split; [discriminate|].
  apply (mv_moves_sources_to_destination ["a.txt"; "docs"] "/tmp"
           ToyHost.start); [discriminate | reflexivity].
Defined.

Section Removal.

Context {H : Type} {os : HostOS H}.

Lemma rm_call_flags (args : list string) (kwargs : Kwargs) :
  unexpected_kw ["recursive"; "ignore_errors"] kwargs = None ->
  rm_call args kwargs
  = rm_body args (flag "recursive" kwargs) (flag "ignore_errors" kwargs).
Proof.
  intros Hkw. unfold rm_call. now rewrite Hkw.
Qed.

Lemma rm_one_directory (recursive ignore_errors : bool) (d : string)
    (w : World H) :
  path_exists (host w) d = true ->
  path_isdir (host w) d = true ->
  rm_one recursive ignore_errors d w
  = if recursive then effect (shutil_rmtree d ignore_errors) w
    else if ignore_errors then
      print (PrintStr (is_a_directory_message d)) w
    else Raise (Exc OSError (is_a_directory_message d)) w.
Proof.
  intros Hex Hdir. unfold rm_one, bind, query.
  rewrite Hex. simpl. rewrite Hdir.
  destruct recursive; simpl; [reflexivity|].
  now destruct ignore_errors.
Qed.

(** What [rm] does with an existing directory [d] at the head of its
    resolved arguments. *)
Lemma rm_body_directory (recursive ignore_errors : bool) (d : string)
    (rest : list string) (w : World H) :
  path_exists (host w) d = true ->
  path_isdir (host w) d = true ->
  rm_body (d :: rest) recursive ignore_errors w
  = if recursive then
      (effect (shutil_rmtree d ignore_errors) ;;
       rm_body rest recursive ignore_errors)%py w
    else if ignore_errors then
      rm_body rest recursive ignore_errors
        (mkWorld (host w)
           (stdout w ++ [PrintStr (is_a_directory_message d)]))
    else Raise (Exc OSError (is_a_directory_message d)) w.
Proof.
  intros Hex Hdir.
  change (rm_body (d :: rest) recursive ignore_errors w)
    with ((rm_one recursive ignore_errors d ;;
           rm_body rest recursive ignore_errors)%py w).
  unfold bind. rewrite (rm_one_directory _ _ _ _ Hex Hdir).
  destruct recursive; [reflexivity|].
  now destruct ignore_errors.
Qed.


(** C2. A path whose expansion matches nothing leaves [rm] with no
    argument to process: the call returns without an exception and with the
    host unchanged, whatever [ignore_errors] is.  For a path that does not
    exist this is the behaviour with [ignore_errors] true, and it is also
    the behaviour with [ignore_errors] false, where the claim and the
    documentation of the parameter expect a failure. *)
Theorem rm_of_unmatched_path_returns
    (p : string) (kwargs : Kwargs) (w : World H) :
  unexpected_kw ["recursive"; "ignore_errors"] kwargs = None ->
  glob_glob (host w) (expand_path (host w) p) = [] ->
  rm [p] kwargs w = Ok tt (after_prints [p] w)
  /\ host (after_prints [p] w) = host w.
Proof.
  intros Hkw Hglob. split; [|reflexivity].
  rewrite rm_unfold by (simpl; lia).
  rewrite (rm_call_flags _ _ Hkw).
  unfold expand_args. simpl. now rewrite Hglob.
Qed.

(** The body of [rm] itself, handed a path that does not exist: with
    [ignore_errors] it skips the path, and without it the path goes to
    [os.unlink], whose failure is the error of the call. *)
Lemma rm_body_missing_path (recursive ignore_errors : bool) (p : string)
    (w : World H) :
  path_exists (host w) p = false ->
  path_isdir (host w) p = false ->
  rm_body [p] recursive ignore_errors w
  = if ignore_errors then Ok tt w
    else (effect (os_unlink p) ;; ret tt)%py w.
Proof.
  intros Hex Hdir. unfold rm_body. simpl for_each.
  unfold bind at 1. unfold rm_one, bind, query.
  rewrite Hex. simpl. destruct ignore_errors; [reflexivity|].
  simpl. now rewrite Hdir.
Qed.

End Removal.


Lemma rm_of_unmatched_path_returns_witness :
  path_exists ToyHost.sample (expand_path ToyHost.sample "nope") = false
  /\ rm ["nope"] [("ignore_errors", VBool false)] ToyHost.start
     = Ok tt (after_prints ["nope"] ToyHost.start)
  /\ host (after_prints ["nope"] ToyHost.start) = host ToyHost.start.
Proof.
  split; [reflexivity|].
  apply (rm_of_unmatched_path_returns "nope"
           [("ignore_errors", VBool false)] ToyHost.start); reflexivity.
Defined.

Section Copy.

Context {H : Type} {os : HostOS H}.

Lemma cp_call_flags (args : list string) (kwargs : Kwargs) :
  unexpected_kw ["recursive"] kwargs = None ->
  cp_call args kwargs = cp_body args (flag "recursive" kwargs).
Proof.
  intros Hkw. unfold cp_call. now rewrite Hkw.
Qed.

(** The body of [cp] on one directory source and a destination that is no
    directory: the [recursive] flag plays no part. *)
Lemma cp_body_directory_source (recursive : bool) (src dst : string)
    (w : World H) :
  path_isdir (host w) src = true ->
  path_isdir (host w) dst = false ->
  cp_body [src; dst] recursive w
  = if path_exists (host w) dst
    then Raise (Exc FileExistsError destination_exists_message) w
    else effect (shutil_copytree src dst) w.
Proof.
  intros Hsrc Hdst. unfold cp_body, bind, query. simpl.
  rewrite Hdst. simpl. rewrite Hdst. simpl. rewrite Hsrc. simpl.
  now destruct (path_exists (host w) dst).
Qed.

(** C7. [cp] of a directory to a path that does not exist copies
    nothing: the expansion drops the destination, which matches nothing,
    the directory is left as the target of a call without sources, and the
    call returns with the host as it was, whatever the [recursive] flag
    is; [shutil.copytree] of line 173 is not reached.  Onto an existing
    path that is no directory, the call raises [FileExistsError], the host
    as it was. *)
Theorem cp_directory_to_missing_destination_copies_nothing
    (source dest : string) (kwargs : Kwargs) (w : World H) (src : string) :
  unexpected_kw ["recursive"] kwargs = None ->
  glob_glob (host w) (expand_path (host w) source) = [src] ->
  path_isdir (host w) src = true ->
  (glob_glob (host w) (expand_path (host w) dest) = [] ->
   cp [source; dest] kwargs w = Ok tt (after_prints [source; dest] w)
   /\ host (after_prints [source; dest] w) = host w)
  /\ (forall dst,
        glob_glob (host w) (expand_path (host w) dest) = [dst] ->
        path_isdir (host w) dst = false ->
        path_exists (host w) dst = true ->
        cp [source; dest] kwargs w
        = Raise (Exc FileExistsError destination_exists_message)
            (after_prints [source; dest] w)
        /\ host (after_prints [source; dest] w) = host w).
Proof.
  intros Hkw Hsource Hsrc.
  rewrite cp_unfold by (simpl; lia).
  rewrite (cp_call_flags _ _ Hkw).
  unfold expand_args. simpl. rewrite Hsource. simpl.
  split.
  - intros ->. split; [|reflexivity].
    unfold cp_body, bind, query. simpl.
    rewrite Hsrc. simpl. now rewrite Hsrc.
  - intros dst -> Hdst Hex. split; [|reflexivity]. cbn [app].
    rewrite cp_body_directory_source by assumption.
    change (host (after_prints [source; dest] w)) with (host w).
    now rewrite Hex.
Qed.

(** C10. Whenever every one of at least two raw arguments expands to a
    pattern without a match, the arity check passes, the body of [cp]
    receives no positional argument, and its access to the last one raises
    [IndexError]. *)
Theorem cp_index_error_after_empty_expansion
    (args : list string) (kwargs : Kwargs) (w : World H) :
  2 <= List.length args ->
  unexpected_kw ["recursive"] kwargs = None ->
  (forall p, In p args -> glob_glob (host w) (expand_path (host w) p) = []) ->
  expand_args true (host w) args = []
  /\ cp args kwargs w
     = Raise (Exc IndexError "tuple index out of range")
         (after_prints args w).
Proof.
  intros Hn Hkw Hglob.
  assert (Hempty : expand_args true (host w) args = []).
  { unfold expand_args. clear Hn.
    induction args as [|p args IH]; [reflexivity|]. simpl.
    rewrite (Hglob p) by now left.
    apply IH. intros q Hq. apply Hglob. now right. }
  split; [exact Hempty|].
  now rewrite (cp_unfold _ _ _ Hn), Hempty, (cp_call_flags _ _ Hkw).
Qed.

End Copy.

Lemma cp_directory_to_missing_destination_copies_nothing_witness :
  path_isdir ToyHost.sample "/home/u/docs" = true
  /\ path_exists ToyHost.sample "/tmp/copy" = false
  /\ cp ["docs"; "/tmp/copy"] [("recursive", VBool true)] ToyHost.start
     = Ok tt (after_prints ["docs"; "/tmp/copy"] ToyHost.start)
  /\ host (after_prints ["docs"; "/tmp/copy"] ToyHost.start)
     = host ToyHost.start.
Proof.
  split; [reflexivity | split; [reflexivity|]].
  refine (proj1 (cp_directory_to_missing_destination_copies_nothing
                   "docs" "/tmp/copy" [("recursive", VBool true)]
                   ToyHost.start "/home/u/docs" _ _ _) _); reflexivity.
Defined.

Lemma cp_index_error_after_empty_expansion_witness :
  2 <= List.length ["nope"; "nope2"]
  /\ expand_args true ToyHost.sample ["nope"; "nope2"] = []
  /\ cp ["nope"; "nope2"] [] ToyHost.start
     = Raise (Exc IndexError "tuple index out of range")
         (after_prints ["nope"; "nope2"] ToyHost.start).
Proof.
  split; [simpl; lia|].
  apply (cp_index_error_after_empty_expansion ["nope"; "nope2"] []
           ToyHost.start); [simpl; lia | reflexivity |].
  intros p [<- | [<- | []]]; reflexivity.
Defined.

(** ** The scoped change of directory *)

Section Scope.

Context {H : Type} {os : HostOS H}.

Lemma current_directory_enter (d : string) (w : World H) (h1 : H) :
  os_chdir (expand_path (host w) d) (host w) = HOk h1 ->
  gen_to_yield (current_directory d) w
  = Ok (os_getcwd (host w)) (mkWorld h1 (stdout w)).
Proof.
  intros Hcd. simpl. unfold bind, query, effect. simpl. now rewrite Hcd.
Qed.

(** When the body returns, the generator is resumed and changes back to the
    directory that was current at entry. *)
Lemma current_directory_normal_exit {A} (d : string) (body : M H A)
    (w w2 : World H) (h1 : H) (a : A) :
  os_chdir (expand_path (host w) d) (host w) = HOk h1 ->
  body (mkWorld h1 (stdout w)) = Ok a w2 ->
  with_stmt (current_directory d) body w
  = (effect (os_chdir (os_getcwd (host w))) ;; ret a)%py w2.
Proof.
  intros Hcd Hbody. unfold with_stmt.
  rewrite (current_directory_enter _ _ _ Hcd), Hbody. reflexivity.
Qed.

(** C1. When the body of [with current_directory(d)] raises, the statement
    ends with that exception in exactly the state the body raised in: the
    [os.chdir(cur_dir)] that follows the [yield] is not run, so the working
    directory stays the one the scope set and is not the one that was
    current before entry. *)
Theorem current_directory_not_restored_when_body_raises {A}
    (d : string) (body : M H A) (w w2 : World H) (h1 : H) (e : Exn) :
  os_chdir (expand_path (host w) d) (host w) = HOk h1 ->
  body (mkWorld h1 (stdout w)) = Raise e w2 ->
  with_stmt (current_directory d) body w = Raise e w2.
Proof.
  intros Hcd Hbody. unfold with_stmt.
  rewrite (current_directory_enter _ _ _ Hcd), Hbody. reflexivity.
Qed.

End Scope.

Lemma current_directory_not_restored_when_body_raises_witness :
  os_getcwd ToyHost.sample = "/home/u"
  /\ exists w2,
       with_stmt (current_directory "/tmp")
         (raise (A := unit) (Exc RuntimeError "boom")) ToyHost.start
       = Raise (Exc RuntimeError "boom") w2
       /\ os_getcwd (host w2) = "/tmp".
Proof.
  split; [reflexivity|].
  eexists. split.
  - eapply (current_directory_not_restored_when_body_raises "/tmp"
              (raise (Exc RuntimeError "boom")) ToyHost.start); reflexivity.
  - reflexivity.
Defined.

(** ** Listing *)

Lemma distinct_In (l : list string) (x : string) :
  In x (distinct l) <-> In x l.
Proof.
  induction l as [|a l IH]; simpl; [tauto|].
  rewrite filter_In, IH, negb_true_iff, String.eqb_neq.
  destruct (String.eqb_spec x a) as [->|Hne]; [tauto|].
  split; [tauto | intros [E | Hin]; [now elim Hne | tauto]].
Qed.

Lemma NoDup_filter {A} (f : A -> bool) (l : list A) :
  NoDup l -> NoDup (filter f l).
Proof.
  induction 1 as [|a l Hnotin Hnd IH]; simpl; [constructor|].
  destruct (f a); [|exact IH].
  constructor; [|exact IH]. rewrite filter_In. tauto.
Qed.

Lemma distinct_NoDup (l : list string) : NoDup (distinct l).
Proof.
  induction l as [|a l IH]; simpl; constructor.
  - rewrite filter_In, String.eqb_refl. simpl. intros [_ Hf]. discriminate.
  - now apply NoDup_filter.
Qed.

Lemma filter_not_mem_nil (l : list string) :
  filter (fun y => negb (mem y [])) l = l.
Proof.
  induction l as [|a l IH]; simpl; [reflexivity | f_equal; exact IH].
Qed.

Lemma filter_seen_drops (ks : list string) (x : string) (l : list string) :
  mem x ks = true ->
  filter (fun y => negb (mem y ks))
    (filter (fun y => negb (String.eqb y x)) l)
  = filter (fun y => negb (mem y ks)) l.
Proof.
  intros Hx. induction l as [|a l IH]; simpl; [reflexivity|].
  destruct (String.eqb_spec a x) as [->|Hne]; simpl.
  - now rewrite Hx.
  - now rewrite IH.
Qed.

Lemma filter_seen_extend (ks : list string) (x : string) (l : list string) :
  filter (fun y => negb (mem y (ks ++ [x]))) l
  = filter (fun y => negb (mem y ks))
      (filter (fun y => negb (String.eqb y x)) l).
Proof.
  induction l as [|a l IH]; simpl; [reflexivity|].
  unfold mem at 1. rewrite existsb_app. simpl. rewrite orb_false_r.
  fold (mem a ks).
  destruct (String.eqb a x); simpl.
  - now rewrite orb_true_r.
  - now rewrite orb_false_r, IH.
Qed.

Section DictOfFunction.

Context {V : Type} (f : string -> V).

Lemma dict_set_present (ks : list string) (x : string) :
  mem x ks = true ->
  dict_set (map (fun p => (p, f p)) ks) x (f x) = map (fun p => (p, f p)) ks.
Proof.
  induction ks as [|k ks IH]; simpl; [discriminate|].
  destruct (String.eqb_spec x k) as [->|Hne]; simpl; [reflexivity|].
  intros Hx. now rewrite IH.
Qed.

Lemma dict_set_absent (ks : list string) (x : string) :
  mem x ks = false ->
  dict_set (map (fun p => (p, f p)) ks) x (f x)
  = map (fun p => (p, f p)) (ks ++ [x]).
Proof.
  induction ks as [|k ks IH]; simpl; [reflexivity|].
  destruct (String.eqb_spec x k) as [->|Hne]; simpl; [discriminate|].
  intros Hx. now rewrite IH.
Qed.

(** Filling a dictionary with [f] over a list of keys leaves one entry per
    distinct key, in order of first occurrence. *)
Lemma dict_fill_distinct (xs ks : list string) :
  fold_left (fun d a => dict_set d a (f a)) xs (map (fun p => (p, f p)) ks)
  = map (fun p => (p, f p))
      (ks ++ filter (fun y => negb (mem y ks)) (distinct xs)).
Proof.
  revert ks. induction xs as [|x xs IH]; intros ks; simpl.
  - now rewrite app_nil_r.
  - destruct (mem x ks) eqn:Hx; simpl.
    + now rewrite (dict_set_present _ _ Hx), IH, (filter_seen_drops _ _ _ Hx).
    + rewrite (dict_set_absent _ _ Hx), IH, filter_seen_extend.
      now rewrite <- app_assoc.
Qed.

End DictOfFunction.

Section Listing.

Context {H : Type} {os : HostOS H}.

Lemma ls_one_entry (results : list (string * list string)) (arg : string)
    (entries : list string) (w : World H) :
  ls_entry (host w) arg = inr entries ->
  ls_one results arg w = Ok (dict_set results arg entries) w.
Proof.
  unfold ls_entry, ls_one, bind, query, attempt, ret.
  destruct (path_isdir (host w) arg).
  - now intros ->.
  - destruct (path_exists (host w) arg); now intros [= <-].
Qed.

Lemma ls_loop (xs : list string) (acc : list (string * list string))
    (w : World H) :
  (forall p, In p xs -> exists entries, ls_entry (host w) p = inr entries) ->
  for_fold ls_one xs acc w
  = Ok (fold_left (fun d a => dict_set d a (ls_entry_list (host w) a)) xs acc)
      w.
Proof.
  revert acc. induction xs as [|x xs IH]; intros acc Hxs; [reflexivity|].
  simpl. unfold bind at 1.
  destruct (Hxs x (or_introl eq_refl)) as [entries Hx].
  rewrite (ls_one_entry _ _ _ _ Hx).
  unfold ls_entry_list at 2. rewrite Hx.
  apply IH. intros p Hp. apply Hxs. now right.
Qed.

Lemma ls_collapse_map (f : string -> list string) (ps : list string) :
  ls_collapse (map (fun p => (p, f p)) ps)
  = match ps with
    | [p] => Plain (f p)
    | _ => Mapping (map (fun p => (p, f p)) ps)
    end.
Proof.
  destruct ps as [|p [|q ps]]; reflexivity.
Qed.

Lemma ls_unfold (args : list string) (w : World H) :
  ls args [] w
  = (results <- for_fold ls_one (ls_paths (host w) args) [] ;;
     ret (ls_collapse results))%py (after_prints args w).
Proof.
  unfold ls, expand_paths, bind, print, query, attempt, ret. simpl.
  unfold ls_body, ls_paths, after_prints, bind. rewrite <- app_assoc. simpl.
  now destruct args.
Qed.

Lemma ls_expected_plain_iff (h : H) (args : list string) :
  (exists entries, ls_expected h args = Plain entries)
  <-> List.length (distinct (ls_paths h args)) = 1.
Proof.
  unfold ls_expected.
  destruct (distinct (ls_paths h args)) as [|p [|q ps]]; simpl; split;
    try discriminate; eauto; intros [entries E]; discriminate.
Qed.

(** C9, as the code has it.  Provided every directory among the paths can
    be listed, [ls] returns the mapping from each distinct path it looks at
    (the expanded arguments, or [.] without arguments) to its result
    sequence when there is more than one distinct path, and the bare result
    sequence exactly when there is one distinct path; this is the case for
    a single argument, explicit or defaulted, and [ls()] returns the
    entries of the current directory as a bare sequence. *)
Theorem ls_result_by_distinct_paths (args : list string) (w : World H) :
  (forall p, In p (ls_paths (host w) args) ->
             exists entries, ls_entry (host w) p = inr entries) ->
  ls args [] w = Ok (ls_expected (host w) args) (after_prints args w)
  /\ (1 < List.length (distinct (ls_paths (host w) args)) ->
      ls_expected (host w) args
      = Mapping (map (fun p => (p, ls_entry_list (host w) p))
                   (distinct (ls_paths (host w) args))))
  /\ ((exists entries, ls_expected (host w) args = Plain entries)
      <-> List.length (distinct (ls_paths (host w) args)) = 1)
  /\ (List.length args <= 1 ->
      exists entries, ls_expected (host w) args = Plain entries)
  /\ (args = [] ->
      forall entries,
        path_isdir (host w) "." = true ->
        os_listdir (host w) "." = inr entries ->
        ls args [] w = Ok (Plain entries) (after_prints args w)).
Proof.
  intros Hlist.
  assert (Hls : ls args [] w
                = Ok (ls_expected (host w) args) (after_prints args w)).
  { rewrite ls_unfold. unfold bind.
    rewrite ls_loop by exact Hlist.
    change (host (after_prints args w)) with (host w).
    pose proof (dict_fill_distinct (ls_entry_list (host w))
                  (ls_paths (host w) args) []) as E.
    simpl in E. rewrite filter_not_mem_nil in E. rewrite E.
    rewrite ls_collapse_map. unfold ls_expected.
    now destruct (distinct (ls_paths (host w) args)) as [|p [|q ps]]. }
  split; [exact Hls|]. split; [|split; [|split]].
  - unfold ls_expected.
    destruct (distinct (ls_paths (host w) args)) as [|p [|q ps]]; simpl;
      [lia | lia | reflexivity].
  - apply ls_expected_plain_iff.
  - intros Hn. apply ls_expected_plain_iff.
    destruct args as [|a [|b args]]; [reflexivity | reflexivity |].
    simpl in Hn. lia.
  - intros -> entries Hdir Hentries. rewrite Hls.
    unfold ls_expected, ls_entry_list, ls_entry. simpl.
    now rewrite Hdir, Hentries.
Qed.

End Listing.

Lemma ls_result_by_distinct_paths_witness :
  ls ["docs"; "/tmp"] [] ToyHost.start
  = Ok (Mapping [("/home/u/docs", ["r.txt"]); ("/tmp", ["dangling"])])
      (after_prints ["docs"; "/tmp"] ToyHost.start)
  /\ ls [] [] ToyHost.start
     = Ok (Plain ["a.txt"; "docs"]) (after_prints [] ToyHost.start).
Proof.
  split.
  - refine (proj1 (ls_result_by_distinct_paths ["docs"; "/tmp"]
                     ToyHost.start _)).
    intros p [<- | [<- | []]]; eexists; reflexivity.
  - refine (proj1 (ls_result_by_distinct_paths [] ToyHost.start _)).
    intros p [<- | []]; eexists; reflexivity.
Defined.

(** C9 as stated fails: a call with two arguments that name the same path
    returns a bare sequence, not a mapping. *)
Lemma ls_two_arguments_bare_sequence :
  ~ (forall args : list string,
       1 < List.length args ->
       exists results w',
         ls args [] ToyHost.start = Ok (Mapping results) w').
Proof.
  intros Hclaim.
  destruct (Hclaim ["docs"; "docs"]) as (results & w' & E); [simpl; lia|].
  discriminate E.
Qed.

(* ================================================================== *)
(** * Further properties *)

(** ** Path expansion *)

Lemma substring_all (s : string) :
  String.substring 0 (String.length s) s = s.
Proof.
  induction s as [|c s IH]; simpl; [reflexivity | now rewrite IH].
Qed.

Lemma split_sep_nonempty (s : string) : split_sep s <> [].
Proof.
  destruct s as [|c s]; simpl; [discriminate|].
  destruct (Ascii.eqb c sep_char); [discriminate|].
  destruct (split_sep s); discriminate.
Qed.

(** [split] distributes over a separator. *)
Lemma split_sep_at_sep (a b : string) :
  split_sep (a ++ String sep_char b) = (split_sep a ++ split_sep b)%list.
Proof.
  induction a as [|c a IH]; simpl; [reflexivity|].
  destruct (Ascii.eqb c sep_char); rewrite IH; [reflexivity|].
  pose proof (split_sep_nonempty a) as Hne.
  destruct (split_sep a) as [|x xs]; [congruence | reflexivity].
Qed.

Lemma string_append_assoc (a b c : string) :
  (a ++ b) ++ c = a ++ (b ++ c).
Proof.
  induction a as [|x a IH]; simpl; [reflexivity | now rewrite IH].
Qed.

Lemma endswith_sep_app (s : string) :
  endswith_sep s = true -> exists s', s = s' ++ String sep_char EmptyString.
Proof.
  induction s as [|c s IH]; simpl; [discriminate|].
  destruct s as [|d s].
  - intros E. apply Ascii.eqb_eq in E. subst c. now exists EmptyString.
  - intros E. destruct (IH E) as [s' Hs']. exists (String c s').
    simpl. now rewrite <- Hs'.
Qed.

Lemma initial_slashes_join_dot (cwd : string) :
  isabs cwd = true ->
  initial_slashes (path_join cwd ".") = initial_slashes cwd.
Proof.
  intros Habs. apply startswith_sep_cons in Habs as [r ->].
  unfold path_join. simpl startswith. cbv iota.
  destruct r as [|c1 [|c2 r]].
  - reflexivity.
  - destruct (Ascii.eqb_spec c1 sep_char) as [-> | Hne]; [reflexivity|].
    assert (E : Ascii.eqb c1 sep_char = false) by now apply Ascii.eqb_neq.
    assert (E' : Ascii.eqb sep_char c1 = false)
      by now rewrite Ascii.eqb_sym.
    unfold initial_slashes. simpl. rewrite E. simpl. now rewrite E'.
  - destruct (_ || _); reflexivity.
Qed.

Lemma normpath_join_dot (cwd : string) :
  isabs cwd = true -> normpath (path_join cwd ".") = normpath cwd.
Proof.
  intros Habs. unfold normpath.
  rewrite (initial_slashes_join_dot _ Habs).
  apply startswith_sep_cons in Habs as [r ->].
  assert (Hsplit :
    fold_left (normpath_step (initial_slashes (String sep_char r)))
      (split_sep (path_join (String sep_char r) ".")) []
    = fold_left (normpath_step (initial_slashes (String sep_char r)))
        (split_sep (String sep_char r)) []).
  { unfold path_join. simpl startswith. cbv iota.
    destruct (endswith_sep (String sep_char r)) eqn:Hend.
    - rewrite orb_true_r.
      destruct (endswith_sep_app _ Hend) as [s' Hs']. rewrite Hs'.
      rewrite string_append_assoc. simpl append.
      rewrite (split_sep_at_sep s' "."), (split_sep_at_sep s' EmptyString).
      now rewrite !fold_left_app.
    - change (String.eqb (String sep_char r) EmptyString) with false.
      simpl orb. cbv iota.
      change (sep ++ ".") with (String sep_char ".").
      rewrite split_sep_at_sep, fold_left_app. reflexivity. }
  rewrite Hsplit.
  replace (String.eqb (path_join (String sep_char r) ".") EmptyString)
    with false; [reflexivity|].
  unfold path_join. simpl startswith. cbv iota.
  destruct (_ || _); reflexivity.
Qed.

Section ExpansionFacts.

Context {H : Type} {os : HostOS H}.

(** X1. Whatever string it is given, [expand_path] returns an absolute
    path in normal form: one or two slashes followed by components joined
    by single slashes, none of them empty, [.] or [..]. *)
Theorem expand_path_absolute_normal_form (h : H) (p : string) :
  isabs (os_getcwd h) = true ->
  isabs (expand_path h p) = true
  /\ exists k cs,
       (k = 1 \/ k = 2) /\ forallb clean cs = true
       /\ expand_path h p = sep_times k ++ join_sep cs.
Proof.
  intros Hcwd. unfold expand_path.
  destruct (abspath_is_normpath_of_abs h (expanduser h p) Hcwd)
    as (x & Hx & ->).
  split; [now apply normpath_abs_isabs | now apply normpath_abs_form].
Qed.

(** X2. With [HOME] set to an absolute path that ends in no slash, the
    expansion of [~/x] is the expansion of [HOME/x]. *)
Theorem expand_path_of_home_shorthand (h : H) (home x : string) :
  environ_HOME h = Some home ->
  isabs home = true ->
  rstrip_sep home = home ->
  expand_path h ("~/" ++ x) = expand_path h (home ++ "/" ++ x).
Proof.
  intros Hhome Habs Hstrip. unfold expand_path. f_equal.
  rewrite (expanduser_abs h (home ++ "/" ++ x))
    by (unfold isabs; now apply startswith_sep_app).
  unfold expanduser.
  change (startswith ("~/" ++ x) "~") with true.
  replace (String.index 1 sep ("~/" ++ x)) with (Some 1)
    by (destruct x; reflexivity).
  cbv iota beta zeta. simpl negb. cbv iota.
  change (Nat.eqb 1 1) with true. cbv iota.
  rewrite Hhome, Hstrip.
  change (String.length ("~/" ++ x) - 1) with (S (String.length x)).
  change (String.substring 1 (S (String.length x)) ("~/" ++ x))
    with (String sep_char (String.substring 0 (String.length x) x)).
  rewrite substring_all.
  apply startswith_sep_cons in Habs as [home' ->]. reflexivity.
Qed.

(** X3. [pwd] returns the normal form of the working directory and
    changes nothing; when the working directory is in normal form, as the
    kernel reports it, [pwd] returns it as it is. *)
Theorem pwd_is_normalised_working_directory (w : World H) :
  isabs (os_getcwd (host w)) = true ->
  pwd w = Ok (normpath (os_getcwd (host w))) w
  /\ (normpath (os_getcwd (host w)) = os_getcwd (host w) ->
      pwd w = Ok (os_getcwd (host w)) w).
Proof.
  intros Hcwd.
  assert (E : pwd w = Ok (normpath (os_getcwd (host w))) w).
  { unfold pwd, query, expand_path, abspath.
    change (expanduser (host w) ".") with ".".
    change (isabs ".") with false. cbv iota.
    now rewrite normpath_join_dot. }
  split; [exact E | intros Hn; now rewrite E, Hn].
Qed.

(** X4. The function wrapped by [expand_paths] without glob expansion is
    called once the two lines are printed, on the expansion of each
    positional argument at its place, as many as were given and each
    absolute, and on the expanded keyword arguments; when the expansion of
    a keyword argument raises, that exception ends the call after the two
    lines and the wrapped function is not called. *)
Theorem expand_paths_without_glob_hands_over_expansions {R}
    (names : list string) (func : list string -> Kwargs -> M H R)
    (fargs : list string) (fkwargs : Kwargs) (w : World H) :
  isabs (os_getcwd (host w)) = true ->
  (forall fkwargs', expand_kwargs names (host w) fkwargs = inr fkwargs' ->
     expand_paths names false func fargs fkwargs w
     = func (map (expand_path (host w)) fargs) fkwargs'
         (after_prints fargs w))
  /\ (forall e, expand_kwargs names (host w) fkwargs = inl e ->
        expand_paths names false func fargs fkwargs w
        = Raise e (after_prints fargs w))
  /\ List.length (map (expand_path (host w)) fargs) = List.length fargs
  /\ forallb isabs (map (expand_path (host w)) fargs) = true.
Proof.
  intros Hcwd.
  assert (E : expand_paths names false func fargs fkwargs w
              = match expand_kwargs names (host w) fkwargs with
                | inr fkwargs' =>
                    func (map (expand_path (host w)) fargs) fkwargs'
                      (after_prints fargs w)
                | inl e => Raise e (after_prints fargs w)
                end).
  { unfold expand_paths, after_prints, bind, print, query, attempt, ret.
    simpl. rewrite <- app_assoc. simpl.
    now destruct (expand_kwargs names (host w) fkwargs). }
  split; [|split; [|split]].
  - intros fkwargs' Hkw. now rewrite E, Hkw.
  - intros e Hkw. now rewrite E, Hkw.
  - apply length_map.
  - apply forallb_forall. intros q Hq.
    apply in_map_iff in Hq as (p & <- & _).
    now apply expand_path_absolute_normal_form.
Qed.

End ExpansionFacts.

Lemma expand_path_absolute_normal_form_witness :
  isabs (os_getcwd ToyHost.sample) = true
  /\ isabs (expand_path ToyHost.sample "docs/../~x/./") = true.
Proof.
  split; [reflexivity|].
  apply (expand_path_absolute_normal_form ToyHost.sample); reflexivity.
Defined.

Lemma expand_path_of_home_shorthand_witness :
  expand_path ToyHost.sample ("~/" ++ "docs/r.txt")
  = expand_path ToyHost.sample ("/home/u" ++ "/" ++ "docs/r.txt").
Proof.
  apply (expand_path_of_home_shorthand ToyHost.sample "/home/u");
    reflexivity.
Defined.

Lemma pwd_is_normalised_working_directory_witness :
  pwd ToyHost.start = Ok "/home/u" ToyHost.start.
Proof.
  refine (proj2 (pwd_is_normalised_working_directory ToyHost.start _) _);
    reflexivity.
Defined.

Lemma expand_paths_without_glob_hands_over_expansions_witness :
  expand_paths ["path"] false
    (fun args kwargs => ret (args, kwargs)) ["a*"; "~"; "../x"]
    [("path", VStr "docs/.")] ToyHost.start
  = Ok (["/home/u/a*"; "/home/u"; "/home/x"], [("path", VStr "/home/u/docs")])
      (after_prints ["a*"; "~"; "../x"] ToyHost.start).
Proof.
  refine (proj1 (expand_paths_without_glob_hands_over_expansions
                   ["path"] (fun args kwargs => ret (args, kwargs))
                   ["a*"; "~"; "../x"] [("path", VStr "docs/.")]
                   ToyHost.start _) _ _); reflexivity.
Defined.

(** ** Keyword arguments and [ls] *)

Section KeywordFacts.

Context {H : Type} {os : HostOS H}.

Lemma expand_kwargs_result (names : list string) (h : H) (kw : Kwargs) :
  expand_kwargs names h kw
  = match find (unexpandable names) kw with
    | Some (_, v) => inl (Exc TypeError (fspath_message v))
    | None => inr (map (expand_entry names h) kw)
    end.
Proof.
  induction kw as [|[k v] kw IH]; [reflexivity|].
  simpl expand_kwargs. rewrite IH. clear IH.
  change (find (unexpandable names) ((k, v) :: kw))
    with (if unexpandable names (k, v) then Some (k, v)
          else find (unexpandable names) kw).
  change (map (expand_entry names h) ((k, v) :: kw))
    with (expand_entry names h (k, v) :: map (expand_entry names h) kw).
  assert (Hmem : mem k names = existsb (String.eqb k) names) by reflexivity.
  destruct v;
    [ change (unexpandable names (k, VNone)) with (mem k names)
    | change (unexpandable names (k, VBool b)) with (mem k names)
    | change (unexpandable names (k, VInt z)) with (mem k names)
    | change (unexpandable names (k, VStr s)) with false;
      change (expand_entry names h (k, VStr s))
        with (if mem k names then (k, VStr (expand_path h s))
              else (k, VStr s)) ];
    rewrite Hmem; destruct (existsb (String.eqb k) names);
    try reflexivity;
    now destruct (find (unexpandable names) kw) as [[k0 v0]|].
Qed.

(** X5. The keyword arguments [expand_paths] hands over are those it
    received, key by key and in the same order: a string under one of the
    configured names is replaced by its expansion (never by glob matches),
    every other entry is kept.  When a value under one of the names is
    [None], a [bool] or an [int], the step raises the [TypeError] of
    [os.fspath] for the first such value, naming its type, and hands over
    nothing. *)
Theorem expand_kwargs_expands_named_strings
    (names : list string) (h : H) (kw : Kwargs) :
  (find (unexpandable names) kw = None ->
   expand_kwargs names h kw = inr (map (expand_entry names h) kw)
   /\ map fst (map (expand_entry names h) kw) = map fst kw)
  /\ (forall k v, find (unexpandable names) kw = Some (k, v) ->
      mem k names = true
      /\ expand_kwargs names h kw
         = inl (Exc TypeError
                  ("expected str, bytes or os.PathLike object, not "
                   ++ type_name v))).
Proof.
  rewrite expand_kwargs_result. split.
  - intros ->. split; [reflexivity|]. rewrite map_map. apply map_ext.
    intros [k v]. unfold expand_entry. destruct v; try reflexivity.
    now destruct (mem k names).
  - intros k v Hfind. rewrite Hfind. split; [|reflexivity].
    apply find_some in Hfind as [_ Hbad]. unfold unexpandable in Hbad.
    now destruct v.
Qed.

(** X6. [ls] takes no keyword parameter: a call with any keyword argument
    raises [TypeError] once the two lines are printed, whether or not the
    keyword is the [path] its decorator is configured to expand. *)
Theorem ls_rejects_keyword_arguments
    (args : list string) (kwargs : Kwargs) (w : World H) :
  kwargs <> [] ->
  exists msg,
    ls args kwargs w = Raise (Exc TypeError msg) (after_prints args w).
Proof.
  intros Hkw. unfold ls, expand_paths, bind, print, query, attempt, ret.
  simpl. rewrite <- app_assoc. simpl.
  rewrite expand_kwargs_result.
  destruct (find (unexpandable ["path"]) kwargs) as [[k0 v0]|];
    [eexists; reflexivity|].
  destruct kwargs as [|[k v] kwargs]; [congruence|].
  simpl map. unfold no_keywords, expand_entry, mem. simpl existsb.
  destruct v; try (eexists; reflexivity).
  destruct (_ || _); eexists; reflexivity.
Qed.

Lemma ls_one_keeps_world (results : list (string * list string))
    (arg : string) (w : World H) :
  res_world (ls_one results arg w) = w.
Proof.
  unfold ls_one, bind, query, attempt, ret.
  destruct (path_isdir (host w) arg).
  - now destruct (os_listdir (host w) arg).
  - now destruct (path_exists (host w) arg).
Qed.

Lemma ls_loop_keeps_world (xs : list string)
    (acc : list (string * list string)) (w : World H) :
  res_world (for_fold ls_one xs acc w) = w.
Proof.
  revert acc. induction xs as [|x xs IH]; intros acc; [reflexivity|].
  simpl. unfold bind.
  pose proof (ls_one_keeps_world acc x w) as Hone.
  destruct (ls_one acc x w) as [acc' w' | e w']; simpl in Hone; subst w'.
  - apply IH.
  - reflexivity.
Qed.

(** X7. [ls] only reads: whatever its arguments are and whether it returns
    or raises, it leaves the host as it was and prints nothing but the two
    lines of its decorator. *)
Theorem ls_leaves_host_unchanged
    (args : list string) (kwargs : Kwargs) (w : World H) :
  res_world (ls args kwargs w) = after_prints args w
  /\ host (res_world (ls args kwargs w)) = host w.
Proof.
  assert (E : res_world (ls args kwargs w) = after_prints args w).
  { unfold ls, expand_paths, bind, print, query, attempt, ret.
    simpl. rewrite <- app_assoc. simpl.
    destruct (expand_kwargs ["path"] (host w) kwargs) as [e | kw'];
      [reflexivity|].
    unfold no_keywords. destruct kw' as [|[k v] kw']; [|reflexivity].
    unfold ls_body, bind.
    match goal with
    | |- context [for_fold ls_one ?xs [] ?w0] =>
        pose proof (ls_loop_keeps_world xs [] w0) as Hloop;
        destruct (for_fold ls_one xs [] w0); simpl in Hloop; subst
    end; reflexivity. }
  split; [exact E | now rewrite E].
Qed.

End KeywordFacts.

Lemma expand_kwargs_expands_named_strings_witness :
  expand_kwargs ["path"] ToyHost.sample
    [("path", VStr "~/docs"); ("depth", VInt 2)]
  = inr [("path", VStr "/home/u/docs"); ("depth", VInt 2)]
  /\ expand_kwargs ["path"] ToyHost.sample
       [("depth", VInt 2); ("path", VInt 5); ("path2", VNone)]
     = inl (Exc TypeError
              "expected str, bytes or os.PathLike object, not int").
Proof.
  split.
  - refine (proj1 (proj1 (expand_kwargs_expands_named_strings ["path"]
                            ToyHost.sample
                            [("path", VStr "~/docs"); ("depth", VInt 2)])
                     _)).
    reflexivity.
  - refine (proj2 (proj2 (expand_kwargs_expands_named_strings ["path"]
                            ToyHost.sample
                            [("depth", VInt 2); ("path", VInt 5);
                             ("path2", VNone)])
                     "path" (VInt 5) _)).
    reflexivity.
Defined.

Lemma ls_rejects_keyword_arguments_witness :
  exists msg,
    ls ["docs"] [("path", VStr "~")] ToyHost.start
    = Raise (Exc TypeError msg) (after_prints ["docs"] ToyHost.start).
Proof.
  apply (ls_rejects_keyword_arguments ["docs"] [("path", VStr "~")]
           ToyHost.start).
  discriminate.
Defined.

(** ** More on [rm] *)

Lemma for_each_app {H A} (body : A -> M H unit) (xs ys : list A)
    (w : World H) :
  for_each body (xs ++ ys) w
  = (for_each body xs ;; for_each body ys)%py w.
Proof.
  revert w. induction xs as [|x xs IH]; intros w; simpl.
  - reflexivity.
  - unfold bind in *. destruct (body x w) as [[] w' | e w'].
    + apply IH.
    + reflexivity.
Qed.

Section RemovalFacts.

Context {H : Type} {os : HostOS H}.

(** X8. Without [recursive], [rm] never calls [shutil.rmtree]: the call
    does the same on every host that differs only in what [rmtree] does,
    so no directory tree is removed. *)
Theorem rm_without_recursive_never_calls_rmtree
    (rmtree : string -> bool -> H -> HostRes H)
    (args : list string) (kwargs : Kwargs) (w : World H) :
  flag "recursive" kwargs = false ->
  @rm H (with_rmtree os rmtree) args kwargs w = @rm H os args kwargs w.
Proof.
  intros Hflag.
  destruct args as [|a args]; [reflexivity|].
  rewrite !rm_unfold by (simpl; lia).
  change (@after_prints H (with_rmtree os rmtree))
    with (@after_prints H os).
  change (@expand_args H (with_rmtree os rmtree))
    with (@expand_args H os).
  unfold rm_call.
  destruct (unexpected_kw ["recursive"; "ignore_errors"] kwargs);
    [reflexivity|].
  rewrite Hflag. reflexivity.
Qed.

(** X9. [rm] undoes nothing: when the arguments before a directory have
    been removed and the directory stops the call (neither [recursive] nor
    [ignore_errors]), the call ends with the [OSError] in the state those
    removals left, and the arguments after the directory are not touched. *)
Theorem rm_stops_at_directory_without_rollback
    (args : list string) (kwargs : Kwargs) (w w1 : World H)
    (before after : list string) (d : string) :
  1 <= List.length args ->
  unexpected_kw ["recursive"; "ignore_errors"] kwargs = None ->
  flag "recursive" kwargs = false ->
  flag "ignore_errors" kwargs = false ->
  expand_args true (host w) args = (before ++ d :: after)%list ->
  rm_body before false false (after_prints args w) = Ok tt w1 ->
  path_exists (host w1) d = true ->
  path_isdir (host w1) d = true ->
  rm args kwargs w = Raise (Exc OSError (is_a_directory_message d)) w1.
Proof.
  intros Hn Hkw Hrec Hign Hargs Hbefore Hex Hdir.
  rewrite (rm_unfold _ _ _ Hn), Hargs, (rm_call_flags _ _ Hkw), Hrec, Hign.
  unfold rm_body in *. rewrite for_each_app. unfold bind. rewrite Hbefore.
  change (for_each (rm_one false false) (d :: after) w1)
    with (rm_body (d :: after) false false w1).
  now rewrite rm_body_directory.
Qed.

(** X10. A keyword that [rm] or [cp] does not declare raises [TypeError]
    after the arguments have been expanded and before anything is removed
    or copied: the host is as it was. *)
Theorem rm_cp_unexpected_keyword
    (args : list string) (kwargs : Kwargs) (w : World H) (k : string) :
  (1 <= List.length args ->
   unexpected_kw ["recursive"; "ignore_errors"] kwargs = Some k ->
   rm args kwargs w
   = Raise (Exc TypeError
              ("rm() got an unexpected keyword argument '" ++ k ++ "'"))
       (after_prints args w))
  /\ (2 <= List.length args ->
      unexpected_kw ["recursive"] kwargs = Some k ->
      cp args kwargs w
      = Raise (Exc TypeError
                 ("cp() got an unexpected keyword argument '" ++ k ++ "'"))
          (after_prints args w))
  /\ host (after_prints args w) = host w.
Proof.
  split; [|split; [|reflexivity]].
  - intros Hn Hkw. rewrite (rm_unfold _ _ _ Hn). unfold rm_call.
    now rewrite Hkw.
  - intros Hn Hkw. rewrite (cp_unfold _ _ _ Hn). unfold cp_call.
    now rewrite Hkw.
Qed.

End RemovalFacts.

Lemma rm_without_recursive_never_calls_rmtree_witness :
  @rm _ (with_rmtree ToyHost.toy_os (fun _ _ h => HErr (Exc OSError "no") h))
    ["docs"; "a.txt"] [("ignore_errors", VBool true)] ToyHost.start
  = rm ["docs"; "a.txt"] [("ignore_errors", VBool true)] ToyHost.start.
Proof.
  apply (rm_without_recursive_never_calls_rmtree
           (fun _ _ h => HErr (Exc OSError "no") h)).
  reflexivity.
Defined.

Lemma rm_stops_at_directory_without_rollback_witness :
  exists w1,
    rm ["a.txt"; "docs"; "docs/r.txt"] [] ToyHost.start
    = Raise (Exc OSError (is_a_directory_message "/home/u/docs")) w1
    /\ path_exists (host w1) "/home/u/a.txt" = false
    /\ path_exists (host w1) "/home/u/docs/r.txt" = true.
Proof.
  eexists. split.
  - eapply (rm_stops_at_directory_without_rollback
              ["a.txt"; "docs"; "docs/r.txt"] [] ToyHost.start _
              ["/home/u/a.txt"] ["/home/u/docs/r.txt"] "/home/u/docs");
      [ simpl; lia | reflexivity .. ].
  - split; reflexivity.
Defined.

(** ** More on [cp] *)

Section CopyFacts.

Context {H : Type} {os : HostOS H}.

Lemma cp_body_unfold (sources : list string) (target : string)
    (recursive : bool) (w : World H) :
  cp_body (sources ++ [target]) recursive w
  = if negb (path_isdir (host w) target) && (1 <? List.length sources)%nat
    then Raise (Exc ValueError not_a_directory_message) w
    else if path_isdir (host w) target
         then for_each (cp_into recursive target) sources w
         else match sources with
              | [] => Raise (Exc IndexError "tuple index out of range") w
              | source :: _ =>
                  if path_isdir (host w) source && path_exists (host w) target
                  then Raise (Exc FileExistsError
                                destination_exists_message) w
                  else if path_isdir (host w) source
                       then effect (shutil_copytree source target) w
                       else effect (shutil_copy source target) w
              end.
Proof.
  unfold cp_body. rewrite last_item_app, removelast_last.
  unfold bind, query, raise.
  destruct (negb (path_isdir (host w) target) && _); [reflexivity|].
  destruct (path_isdir (host w) target); [reflexivity|].
  destruct sources as [|source sources]; [reflexivity|].
  destruct (path_isdir (host w) source && _); [reflexivity|].
  now destruct (path_isdir (host w) source).
Qed.

(** X11. [cp] with several resolved sources and a resolved destination
    that is no directory raises the [ValueError] that [mv] raises in that
    case, and copies nothing. *)
Theorem cp_many_sources_to_non_directory
    (args : list string) (kwargs : Kwargs) (w : World H)
    (sources : list string) (target : string) :
  2 <= List.length args ->
  unexpected_kw ["recursive"] kwargs = None ->
  expand_args true (host w) args = (sources ++ [target])%list ->
  1 < List.length sources ->
  path_isdir (host w) target = false ->
  cp args kwargs w
  = Raise (Exc ValueError not_a_directory_message) (after_prints args w)
  /\ host (after_prints args w) = host w.
Proof.
  intros Hn Hkw Hargs Hmany Hdir. split; [|reflexivity].
  rewrite (cp_unfold _ _ _ Hn), Hargs, (cp_call_flags _ _ Hkw).
  rewrite cp_body_unfold.
  change (host (after_prints args w)) with (host w). rewrite Hdir.
  apply Nat.ltb_lt in Hmany. now rewrite Hmany.
Qed.

(** X12. When the expansion leaves [cp] a single path that is no
    directory (the source matched nothing and the destination is a file,
    or the other way round), that path is taken for the destination, no
    source is left, and the call raises [IndexError]. *)
Theorem cp_single_file_left_raises_index_error
    (args : list string) (kwargs : Kwargs) (w : World H) (target : string) :
  2 <= List.length args ->
  unexpected_kw ["recursive"] kwargs = None ->
  expand_args true (host w) args = [target] ->
  path_isdir (host w) target = false ->
  cp args kwargs w
  = Raise (Exc IndexError "tuple index out of range") (after_prints args w).
Proof.
  intros Hn Hkw Hargs Hdir.
  rewrite (cp_unfold _ _ _ Hn), Hargs, (cp_call_flags _ _ Hkw).
  rewrite (cp_body_unfold [] target).
  change (host (after_prints args w)) with (host w). now rewrite Hdir.
Qed.

(** X13. When the expansion leaves [cp] a single path that is a directory
    (the other argument matched nothing), the call returns without an
    exception and copies nothing. *)
Theorem cp_single_directory_left_copies_nothing
    (args : list string) (kwargs : Kwargs) (w : World H) (target : string) :
  2 <= List.length args ->
  unexpected_kw ["recursive"] kwargs = None ->
  expand_args true (host w) args = [target] ->
  path_isdir (host w) target = true ->
  cp args kwargs w = Ok tt (after_prints args w)
  /\ host (after_prints args w) = host w.
Proof.
  intros Hn Hkw Hargs Hdir. split; [|reflexivity].
  rewrite (cp_unfold _ _ _ Hn), Hargs, (cp_call_flags _ _ Hkw).
  rewrite (cp_body_unfold [] target).
  change (host (after_prints args w)) with (host w). now rewrite Hdir.
Qed.

End CopyFacts.

Section CopyWithoutCopytree.

Context {H : Type} {os : HostOS H}.

(** X14. Into a directory and without [recursive], [cp] never calls
    [shutil.copytree]: the call does the same on every host that differs
    only in what [copytree] does, so directories among the sources are not
    copied. *)
Theorem cp_into_directory_without_recursive_never_calls_copytree
    (copytree : string -> string -> H -> HostRes H)
    (args : list string) (kwargs : Kwargs) (w : World H)
    (sources : list string) (target : string) :
  flag "recursive" kwargs = false ->
  expand_args true (host w) args = (sources ++ [target])%list ->
  path_isdir (host w) target = true ->
  @cp H (with_copytree os copytree) args kwargs w = @cp H os args kwargs w.
Proof.
  intros Hflag Hargs Hdir.
  destruct (le_lt_dec 2 (List.length args)) as [Hn | Hn].
  - rewrite !cp_unfold by exact Hn.
    change (@after_prints H (with_copytree os copytree))
      with (@after_prints H os).
    change (@expand_args H (with_copytree os copytree))
      with (@expand_args H os).
    rewrite Hargs. unfold cp_call.
    destruct (unexpected_kw ["recursive"] kwargs); [reflexivity|].
    rewrite Hflag, (@cp_body_unfold H (with_copytree os copytree)),
      (@cp_body_unfold H os).
    change (@path_isdir H (with_copytree os copytree))
      with (@path_isdir H os).
    change (host (after_prints args w)) with (host w).
    rewrite Hdir. reflexivity.
  - destruct args as [|a [|b args]]; [reflexivity | reflexivity |].
    simpl in Hn. lia.
Qed.

End CopyWithoutCopytree.

Lemma cp_many_sources_to_non_directory_witness :
  cp ["docs"; "docs/r.txt"; "a.txt"] [] ToyHost.start
  = Raise (Exc ValueError not_a_directory_message)
      (after_prints ["docs"; "docs/r.txt"; "a.txt"] ToyHost.start)
  /\ host (after_prints ["docs"; "docs/r.txt"; "a.txt"] ToyHost.start)
     = host ToyHost.start.
Proof.
  apply (cp_many_sources_to_non_directory
           ["docs"; "docs/r.txt"; "a.txt"] [] ToyHost.start
           ["/home/u/docs"; "/home/u/docs/r.txt"] "/home/u/a.txt");
    [ simpl; lia | reflexivity | reflexivity | simpl; lia | reflexivity ].
Defined.

Lemma cp_single_file_left_raises_index_error_witness :
  cp ["nope"; "a.txt"] [] ToyHost.start
  = Raise (Exc IndexError "tuple index out of range")
      (after_prints ["nope"; "a.txt"] ToyHost.start).
Proof.
  apply (cp_single_file_left_raises_index_error ["nope"; "a.txt"] []
           ToyHost.start "/home/u/a.txt");
    [ simpl; lia | reflexivity .. ].
Defined.

Lemma cp_single_directory_left_copies_nothing_witness :
  cp ["docs"; "new"] [("recursive", VBool true)] ToyHost.start
  = Ok tt (after_prints ["docs"; "new"] ToyHost.start)
  /\ host (after_prints ["docs"; "new"] ToyHost.start) = host ToyHost.start.
Proof.
  apply (cp_single_directory_left_copies_nothing ["docs"; "new"]
           [("recursive", VBool true)] ToyHost.start "/home/u/docs");
    [ simpl; lia | reflexivity .. ].
Defined.

Lemma cp_into_directory_without_recursive_never_calls_copytree_witness :
  @cp _ (with_copytree ToyHost.toy_os
           (fun _ _ h => HErr (Exc OSError "no") h))
    ["docs"; "a.txt"; "/tmp"] [] ToyHost.start
  = cp ["docs"; "a.txt"; "/tmp"] [] ToyHost.start.
Proof.
  apply (cp_into_directory_without_recursive_never_calls_copytree
           (fun _ _ h => HErr (Exc OSError "no") h)
           ["docs"; "a.txt"; "/tmp"] [] ToyHost.start
           ["/home/u/docs"; "/home/u/a.txt"] "/tmp"); reflexivity.
Defined.

(** ** More on [current_directory] *)

Section ScopeFacts.

Context {H : Type} {os : HostOS H}.

(** X15. When the body of [with current_directory(d)] returns, the
    statement ends with one more [os.chdir], to the directory [os.getcwd()]
    gave at entry, made in the state the body left: when that call succeeds
    the statement returns the body's value, and when it fails (the body may
    have removed that directory) the statement raises its exception and the
    body's value is lost. *)
Theorem current_directory_returns_to_entry_directory {A}
    (d : string) (body : M H A) (w w2 : World H) (h1 : H) (a : A) :
  os_chdir (expand_path (host w) d) (host w) = HOk h1 ->
  body (mkWorld h1 (stdout w)) = Ok a w2 ->
  (forall h3, os_chdir (os_getcwd (host w)) (host w2) = HOk h3 ->
     with_stmt (current_directory d) body w = Ok a (mkWorld h3 (stdout w2)))
  /\ (forall e h3, os_chdir (os_getcwd (host w)) (host w2) = HErr e h3 ->
        with_stmt (current_directory d) body w
        = Raise e (mkWorld h3 (stdout w2))).
Proof.
  intros Hcd Hbody.
  split; [intros h3 Hback | intros e h3 Hback];
    rewrite (current_directory_normal_exit _ _ _ _ _ _ Hcd Hbody);
    unfold bind, effect; now rewrite Hback.
Qed.

(** X16. When the [os.chdir] at the entry of [current_directory] fails,
    the statement raises its exception, the body is not run, whatever it
    is, and no second [os.chdir] is made. *)
Theorem current_directory_entry_failure_skips_body {A}
    (d : string) (body : M H A) (w : World H) (h1 : H) (e : Exn) :
  os_chdir (expand_path (host w) d) (host w) = HErr e h1 ->
  with_stmt (current_directory d) body w = Raise e (mkWorld h1 (stdout w)).
Proof.
  intros Hcd. unfold with_stmt. simpl. unfold bind, query, effect. simpl.
  now rewrite Hcd.
Qed.

End ScopeFacts.

Lemma current_directory_returns_to_entry_directory_witness :
  exists w3,
    with_stmt (current_directory "/tmp") pwd ToyHost.start = Ok "/tmp" w3
    /\ os_getcwd (host w3) = "/home/u".
Proof.
  eexists. split.
  - refine (proj1 (current_directory_returns_to_entry_directory
                     "/tmp" pwd ToyHost.start _ _ "/tmp" _ _) _ _);
      reflexivity.
  - reflexivity.
Defined.

Lemma current_directory_entry_failure_skips_body_witness :
  exists e,
    with_stmt (current_directory "/nope") (rm ["a.txt"] []) ToyHost.start
    = Raise e ToyHost.start.
Proof.
  eexists.
  apply (current_directory_entry_failure_skips_body "/nope"
           (rm ["a.txt"] []) ToyHost.start (host ToyHost.start)).
  reflexivity.
Defined.

(** ** [mkdir] *)

Section MkdirFacts.

Context {H : Type} {os : HostOS H} {dirs : HostDirs H}.

(** X17. Without [parents], [mkdir] with [exist_ok] can be repeated: on a
    host where the directory [os.mkdir] has made exists afterwards, a call
    that returned is followed by a call that returns at once and changes
    nothing. *)
Theorem mkdir_exist_ok_repeated
    (dir_name : string) (mode : Z) (w w1 : World H) :
  (forall h1, os_mkdir dir_name mode (host w) = HOk h1 ->
              path_exists h1 dir_name = true) ->
  mkdir dir_name mode false true w = Ok tt w1 ->
  mkdir dir_name mode false true w1 = Ok tt w1.
Proof.
  intros Hlaw. unfold mkdir, bind, query, effect.
  destruct (path_exists (host w) dir_name) eqn:Hex.
  - intros [= <-]. now rewrite Hex.
  - destruct (os_mkdir dir_name mode (host w)) as [h1 | e h1] eqn:Hmk;
      [|discriminate].
    intros [= <-]. simpl. now rewrite (Hlaw h1 eq_refl).
Qed.

(** X18. Without [parents], the test of [path.exists] matters only with
    [exist_ok]: without [exist_ok], or for a path that does not exist,
    [mkdir] is the call of [os.mkdir], whose exception (for an existing
    path, say) goes to the caller. *)
Theorem mkdir_is_os_mkdir
    (dir_name : string) (mode : Z) (exist_ok : bool) (w : World H) :
  exist_ok = false \/ path_exists (host w) dir_name = false ->
  mkdir dir_name mode false exist_ok w = effect (os_mkdir dir_name mode) w.
Proof.
  intros Hcase. unfold mkdir, bind, query.
  destruct (path_exists (host w) dir_name) eqn:Hex; [|reflexivity].
  destruct Hcase as [-> | Hno]; [reflexivity | discriminate].
Qed.

End MkdirFacts.

Lemma mkdir_exist_ok_repeated_witness :
  exists w1,
    mkdir "new" 511 false true ToyHost.start = Ok tt w1
    /\ mkdir "new" 511 false true w1 = Ok tt w1
    /\ path_isdir (host w1) "/home/u/new" = true.
Proof.
  eexists. split; [reflexivity | split; [|reflexivity]].
  apply (mkdir_exist_ok_repeated "new" 511 ToyHost.start).
  - intros h1 Hmk. vm_compute in Hmk. injection Hmk as <-. reflexivity.
  - reflexivity.
Defined.

Lemma mkdir_is_os_mkdir_witness :
  mkdir "docs" 511 false false ToyHost.start
  = effect (os_mkdir "docs" 511) ToyHost.start
  /\ effect (os_mkdir "docs" 511) ToyHost.start
     = Raise (Exc FileExistsError "docs") ToyHost.start.
Proof.
  split; [|reflexivity].
  apply (mkdir_is_os_mkdir "docs" 511 false ToyHost.start).
  left. reflexivity.
Defined.

(** ** More on the arity check and on [mv] *)

Section ArityFacts.

Context {H : Type} {os : HostOS H}.

(** X19. [require_args] does not compare its bounds: with a maximum below
    the minimum the decorated function rejects every call with
    [TypeError], in the unchanged state, and the wrapped function is never
    called. *)
Theorem require_args_crossed_bounds_reject_every_call {A K R}
    (mn mx : Z) (func_repr : string) (func : list A -> K -> M H R)
    (args : list A) (kwargs : K) (w : World H) :
  (mx < mn)%Z ->
  require_args (Some mn) (Some mx) func_repr func args kwargs w
  = Raise (Exc TypeError
             (arity_message func_repr (Some mn) (Some mx) (List.length args)))
      w.
Proof.
  intros Hcross. rewrite require_args_reject; [reflexivity|].
  intros [Hmin Hmax].
  specialize (Hmin mn eq_refl). specialize (Hmax mx eq_refl). lia.
Qed.

Lemma for_each_effect_keeps_stdout {A} (f : A -> H -> HostRes H)
    (xs : list A) (w : World H) :
  stdout (res_world (for_each (fun x => effect (f x)) xs w)) = stdout w.
Proof.
  revert w. induction xs as [|x xs IH]; intros w; simpl; [reflexivity|].
  unfold bind, effect at 1.
  destruct (f x (host w)) as [h1 | e h1]; [|reflexivity].
  now rewrite IH.
Qed.

(** X20. [mv] is not decorated with [expand_paths]: whatever the
    arguments, the keywords and the outcome, a call of [mv] prints
    nothing. *)
Theorem mv_prints_nothing
    (args : list string) (kwargs : Kwargs) (w : World H) :
  stdout (res_world (mv args kwargs w)) = stdout w.
Proof.
  unfold mv, require_args.
  destruct (Z.of_nat (List.length args) <? 2)%Z; [reflexivity|].
  destruct kwargs as [|[k v] kwargs]; [|reflexivity].
  unfold no_keywords, mv_body.
  destruct (last_item args) as [target|]; [|reflexivity].
  unfold bind, query, raise.
  destruct (negb (path_isdir (host w) target) && _); [reflexivity|].
  destruct (path_isdir (host w) target).
  - apply for_each_effect_keeps_stdout.
  - destruct (removelast args) as [|source rest]; [reflexivity|].
    unfold effect. now destruct (shutil_move source target (host w)).
Qed.

End ArityFacts.

Lemma require_args_crossed_bounds_reject_every_call_witness :
  require_args (Some 2%Z) (Some 1%Z) "f"
    (fun (_ : list string) (_ : Kwargs) => pwd) ["a"] [] ToyHost.start
  = Raise (Exc TypeError "f takes 2 to 1 arguments, but 1 given")
      ToyHost.start.
Proof.
  apply (require_args_crossed_bounds_reject_every_call 2 1 "f"
           (fun (_ : list string) (_ : Kwargs) => pwd) ["a"] []
           ToyHost.start).
  lia.
Defined.

(** ** Directories among the sources of [cp] *)

Section CopyOmits.

Context {H : Type} {os : HostOS H}.

Lemma cp_into_omits_directories (target : string) (sources : list string)
    (w : World H) :
  Forall (fun source => path_isdir (host w) source = true) sources ->
  for_each (cp_into false target) sources w
  = Ok tt (mkWorld (host w) (stdout w ++ map omitting_directory sources)).
Proof.
  revert w. induction sources as [|source sources IH]; intros w Hdirs.
  - simpl. rewrite app_nil_r. now destruct w.
  - inversion Hdirs as [|? ? Hdir Hrest]; subst. simpl.
    unfold bind at 1. unfold cp_into, bind, query, print. rewrite Hdir.
    rewrite IH by exact Hrest. simpl. now rewrite <- app_assoc.
Qed.

(** X21. Into a directory and without [recursive], [cp] of sources that
    are all directories copies nothing and does not fail: it prints one
    line for each source, in order, after the two lines of the expansion,
    and returns with the host as it was. *)
Theorem cp_omits_directories_without_recursive
    (args : list string) (kwargs : Kwargs) (w : World H)
    (sources : list string) (target : string) :
  2 <= List.length args ->
  unexpected_kw ["recursive"] kwargs = None ->
  flag "recursive" kwargs = false ->
  expand_args true (host w) args = (sources ++ [target])%list ->
  path_isdir (host w) target = true ->
  Forall (fun source => path_isdir (host w) source = true) sources ->
  cp args kwargs w
  = Ok tt (mkWorld (host w)
             (stdout (after_prints args w)
              ++ map omitting_directory sources)).
Proof.
  intros Hn Hkw Hflag Hargs Hdir Hdirs.
  rewrite (cp_unfold _ _ _ Hn), Hargs, (cp_call_flags _ _ Hkw), Hflag.
  rewrite cp_body_unfold.
  change (host (after_prints args w)) with (host w). rewrite Hdir. simpl.
  now rewrite cp_into_omits_directories.
Qed.

End CopyOmits.

Lemma cp_omits_directories_without_recursive_witness :
  cp ["docs"; "/home"; "/tmp"] [] ToyHost.start
  = Ok tt (mkWorld (host ToyHost.start)
             (stdout (after_prints ["docs"; "/home"; "/tmp"] ToyHost.start)
              ++ [PrintStr "Omitting directory /home/u/docs";
                  PrintStr "Omitting directory /home"])).
Proof.
  apply (cp_omits_directories_without_recursive
           ["docs"; "/home"; "/tmp"] [] ToyHost.start
           ["/home/u/docs"; "/home"] "/tmp");
    [ simpl; lia | reflexivity | reflexivity | reflexivity | reflexivity
    | repeat constructor ].
Defined.
